(** * Release pipeline of the release manager (ExportBar.processReleases and
      AzureDevOpsService), shallow embedding.

    Strings are Stdlib strings, JavaScript numbers of the code paths modelled
    here are exact naturals or NaN, and the remote Azure DevOps server is an
    oracle whose answers may depend on the history of calls made so far. *)

From Stdlib Require Import String Ascii List Bool Arith Lia NArith ZArith.
From Stdlib Require Decimal DecimalN.
Import ListNotations.
Open Scope string_scope.

(** ** JavaScript strings and numbers used by the code *)

Definition is_digit (c : ascii) : bool :=
  let n := nat_of_ascii c in Nat.leb 48 n && Nat.leb n 57.

Definition digit_val (c : ascii) : N := N.of_nat (nat_of_ascii c - 48).

(** ASCII lower-casing, the case folding of a regular expression's [i] flag
    on the characters that occur in the patterns. *)
Definition lower (c : ascii) : ascii :=
  let n := nat_of_ascii c in
  if Nat.leb 65 n && Nat.leb n 90 then ascii_of_nat (n + 32) else c.

(** Value of a string made of decimal digits, read left to right. *)
Fixpoint digits_val (s : string) (acc : N) : option N :=
  match s with
  | EmptyString => Some acc
  | String c s' =>
      if is_digit c then digits_val s' (acc * 10 + digit_val c) else None
  end.

(** JavaScript numbers as they occur here: a non-negative integer or NaN.
    The code only ever reads decimal digit strings, for which [Number] is
    exact below 2^53. *)
Inductive num := Num (n : N) | NaN.

(** [String.prototype.trim] on code units below 256: tab, line feed,
    vertical tab, form feed, carriage return, space and no-break space. *)
Definition is_js_space (c : ascii) : bool :=
  let n := nat_of_ascii c in
  (Nat.leb 9 n && Nat.leb n 13) || Nat.eqb n 32 || Nat.eqb n 160.

Fixpoint trim_start (s : string) : string :=
  match s with
  | EmptyString => EmptyString
  | String c s' => if is_js_space c then trim_start s' else s
  end.

Fixpoint trim_end (s : string) : string :=
  match s with
  | EmptyString => EmptyString
  | String c s' =>
      let r := trim_end s' in
      if String.eqb r "" && is_js_space c then "" else String c r
  end.

Definition js_trim (s : string) : string := trim_end (trim_start s).

(** [Number(s)] on the strings the code reads: surrounding white space is
    trimmed as [String.prototype.trim] does; then the empty string is 0, a
    string of decimal digits is its value (leading zeros allowed), anything
    else is NaN.  Signs, fractions, exponents and hex literals are not
    modelled: no version string of the code contains them.  The value is
    exact, which JavaScript's is only up to [max_safe] (2^53 - 1); beyond it
    JavaScript rounds to a double, so every statement below that depends on
    numeric values is restricted to components at most [max_safe]. *)
Definition Number (s : string) : num :=
  match digits_val (js_trim s) 0 with Some n => Num n | None => NaN end.

Definition num_add1 (x : num) : num :=
  match x with Num n => Num (n + 1) | NaN => NaN end.

Fixpoint string_of_uint (d : Decimal.uint) : string :=
  match d with
  | Decimal.Nil => ""
  | Decimal.D0 d => String "0" (string_of_uint d)
  | Decimal.D1 d => String "1" (string_of_uint d)
  | Decimal.D2 d => String "2" (string_of_uint d)
  | Decimal.D3 d => String "3" (string_of_uint d)
  | Decimal.D4 d => String "4" (string_of_uint d)
  | Decimal.D5 d => String "5" (string_of_uint d)
  | Decimal.D6 d => String "6" (string_of_uint d)
  | Decimal.D7 d => String "7" (string_of_uint d)
  | Decimal.D8 d => String "8" (string_of_uint d)
  | Decimal.D9 d => String "9" (string_of_uint d)
  end.

(** Decimal rendering of a natural, as [`${n}`] renders an integer. *)
Definition showN (n : N) : string := string_of_uint (N.to_uint n).

(** Template-literal rendering of a number. *)
Definition num_to_string (x : num) : string :=
  match x with Num n => showN n | NaN => "NaN" end.

(** [s.split(c)] for a one-character separator. *)
Fixpoint splitOn (c : ascii) (s : string) : list string :=
  match s with
  | EmptyString => [""]
  | String a s' =>
      let rest := splitOn c s' in
      if Ascii.eqb a c then "" :: rest
      else match rest with
           | [] => [String a ""]
           | r :: rs => String a r :: rs
           end
  end.

(** ** VersionPolicy: [calculateNewVersion] (ExportBar.tsx, VersionConfig.tsx) *)

Inductive BumpType := major | minor.

(** [currentVersion] is [string | undefined]: [None] is [undefined]. *)
Definition calculateNewVersion (currentVersion : option string)
    (bumpType : BumpType) : string :=
  let seed := match bumpType with major => "1.0" | minor => "0.1" end in
  match currentVersion with
  | None => seed
  | Some cv =>
      if String.eqb cv "" || String.eqb cv "No releases"
         || String.eqb cv "Error loading" then seed
      else
        let parts := map Number (splitOn "." cv) in
        let vmajor := nth 0 parts NaN in
        (* a missing [minor] is [undefined], and [undefined + 1] is NaN *)
        let vminor := nth 1 parts NaN in
        match bumpType with
        | major => num_to_string (num_add1 vmajor) ++ ".0"
        | minor => num_to_string vmajor ++ "." ++ num_to_string (num_add1 vminor)
        end
  end.

(** The string of a real version [(M, m)], as the loader stores it. *)
Definition version_string (M m : N) : string := showN M ++ "." ++ showN m.

(** Largest integer below which JavaScript numbers are exact. *)
Definition max_safe : N := 9007199254740991.

(** ** Types of the code (src/types/azureTypes.ts) *)

Record GitRef := mkGitRef { ref_name : string; ref_objectId : string }.

Record WorkItemReference := mkWorkItemReference { wir_id : string; wir_url : string }.

(** [GitCommit]; its [author] is never read by the pipeline and is left out.
    An absent [workItems] field is the empty list. *)
Record GitCommit := mkGitCommit {
  commitId : string;
  comment : string;
  commit_workItems : list WorkItemReference }.

(** [WorkItem]: a numeric id, the fields the export reads, and the url. *)
Record WorkItem := mkWorkItem {
  wi_id : N;
  wi_type : string;
  wi_title : string;
  wi_url : string }.

(** [Repository]; [None] is an absent optional field. *)
Record Repository := mkRepository {
  repo_id : string;
  repo_name : string;
  currentVersion : option string;
  selected : bool;
  bumpType : option BumpType }.

Record ReleaseProcessingResult := mkResult {
  pr_repository : string;
  pr_success : bool;
  pr_newVersion : option string;
  pr_error : option string;
  pr_workItems : option (list WorkItem) }.

(** ** A state and error monad for the async code

    A rejected promise, or a thrown [Error], carries its message. *)
Inductive outcome (A : Type) := Ok (a : A) | Err (msg : string).
Arguments Ok {A} a.
Arguments Err {A} msg.

Definition SE (S A : Type) : Type := S -> outcome A * S.

Definition ret {S A} (a : A) : SE S A := fun s => (Ok a, s).
Definition throw {S A} (msg : string) : SE S A := fun s => (Err msg, s).
Definition bind {S A B} (m : SE S A) (k : A -> SE S B) : SE S B :=
  fun s => match m s with
           | (Ok a, s') => k a s'
           | (Err e, s') => (Err e, s')
           end.
(** [try { m } catch (e) { h }]: effects performed before the throw stay. *)
Definition catch {S A} (m : SE S A) (h : string -> SE S A) : SE S A :=
  fun s => match m s with
           | (Ok a, s') => (Ok a, s')
           | (Err e, s') => h e s'
           end.

Notation "x <- m ;; k" := (bind m (fun x => k))
  (at level 61, m at next level, right associativity).
Notation "m ;;; k" := (bind m (fun _ => k)) (at level 61, right associativity).

(** ** The remote Azure DevOps server

    Every request the service makes is recorded in a call history (most
    recent first); the server's answer to a request may depend on the whole
    history before it (refs created earlier, work items edited meanwhile).
    An answer is the outcome of the service's [fetch] wrapped in its
    [retryAsync], i.e. the value once the retries are spent. *)
Inductive Call :=
  | CGetRepositoryRefs (repositoryId : string)
  | CGetRepositoryTags (repositoryId : string)
  | CGetMainBranchCommit (repositoryId : string)
  | CCreateBranch (repositoryId branchName sourceBranch : string)
  | CCreateTag (repositoryId tagName commitId message : string)
  | CGetTagObject (repositoryId tagObjectId : string)
  | CGetCommits (repositoryId itemVersion : string)
  | CGetCommitWorkItems (repositoryId commitId : string)
  | CGetPullRequestWorkItems (repositoryId pullRequestId : string)
  | CGetWorkItem (workItemId : string).

Record Remote := mkRemote {
  r_refs : list Call -> string -> outcome (list GitRef);
  r_tags : list Call -> string -> outcome (list GitRef);
  r_mainBranchCommit : list Call -> string -> outcome string;
  r_createBranch : list Call -> string -> string -> string -> outcome unit;
  r_createTag : list Call -> string -> string -> string -> string -> outcome unit;
  (** [taggedObject.objectId] of an annotated tag object *)
  r_tagObject : list Call -> string -> string -> outcome string;
  r_commits : list Call -> string -> string -> outcome (list GitCommit);
  r_commitWorkItems : list Call -> string -> string -> outcome (list string);
  r_pullRequestWorkItems : list Call -> string -> string -> outcome (list string);
  r_workItem : list Call -> string -> outcome WorkItem }.

(** The service's state is the call history. *)
Definition Svc := SE (list Call).

Definition request {A} (c : Call) (answer : list Call -> outcome A) : Svc A :=
  fun h => (answer h, c :: h).

(** ** String matching used by the service and the pipeline *)

(** Longest prefix of decimal digits, and the rest ([\d+] is greedy). *)
Fixpoint span_digits (s : string) : string * string :=
  match s with
  | EmptyString => ("", "")
  | String c s' =>
      if is_digit c then let (d, r) := span_digits s' in (String c d, r)
      else ("", s)
  end.

(** [s] with the prefix [p] removed, comparing characters with [eqc]. *)
Fixpoint strip_prefix_by (eqc : ascii -> ascii -> bool) (p s : string)
    : option string :=
  match p, s with
  | EmptyString, _ => Some s
  | String a p', String b s' => if eqc a b then strip_prefix_by eqc p' s' else None
  | String _ _, EmptyString => None
  end.

Definition strip_prefix := strip_prefix_by Ascii.eqb.
Definition strip_prefix_ci := strip_prefix_by (fun a b => Ascii.eqb (lower a) (lower b)).

(** Unanchored regular-expression search: the first position where the
    pattern [at_pos] matches. *)
Fixpoint search_first {A} (at_pos : string -> option A) (s : string) : option A :=
  match at_pos s with
  | Some a => Some a
  | None => match s with EmptyString => None | String _ s' => search_first at_pos s' end
  end.

(** [/refs\/heads\/release\/(\d+\.\d+)\.x/] at one position, giving group 1.
    Each [\d+] is followed by a literal dot, so greedy matching needs no
    backtracking. *)
Definition release_at (s : string) : option string :=
  match strip_prefix "refs/heads/release/" s with
  | None => None
  | Some r =>
      let (d1, r1) := span_digits r in
      match d1, r1 with
      | EmptyString, _ => None
      | _, EmptyString => None
      | _, String c r2 =>
          if Ascii.eqb c "." then
            let (d2, r3) := span_digits r2 in
            match d2, strip_prefix ".x" r3 with
            | EmptyString, _ => None
            | _, Some _ => Some (d1 ++ "." ++ d2)
            | _, None => None
            end
          else None
      end
  end.

Definition release_capture (name : string) : option string := search_first release_at name.

(** [/Merged PR (\d+)/i] at one position, giving group 1. *)
Definition pr_at (s : string) : option string :=
  match strip_prefix_ci "merged pr " s with
  | None => None
  | Some r => match span_digits r with
              | (EmptyString, _) => None
              | (d, _) => Some d
              end
  end.

(** [comment.match(/Merged PR (\d+)/i)], group 1 of the first match. *)
Definition prMatch (comment : string) : option string := search_first pr_at comment.

(** The two alternatives of [/#(\d+)|AB#(\d+)/gi] at one position: the
    captured digits and the text after the match. *)
Definition hash_at (s : string) : option (string * string) :=
  match s with
  | String c r =>
      if Ascii.eqb c "#" then
        match span_digits r with (EmptyString, _) => None | dr => Some dr end
      else None
  | EmptyString => None
  end.

Definition ab_at (s : string) : option (string * string) :=
  match strip_prefix_ci "ab#" s with
  | None => None
  | Some r => match span_digits r with (EmptyString, _) => None | dr => Some dr end
  end.

(** [matchAll] of the global pattern, each match's [match[1] || match[2]];
    the search resumes after each match.  [fuel] bounds the number of
    positions tried. *)
Fixpoint wi_scan (fuel : nat) (s : string) : list string :=
  match fuel with
  | O => []
  | S f =>
      match hash_at s with
      | Some (d, rest) => d :: wi_scan f rest
      | None =>
          match ab_at s with
          | Some (d, rest) => d :: wi_scan f rest
          | None => match s with EmptyString => [] | String _ s' => wi_scan f s' end
          end
      end
  end.

Definition wiMatches (comment : string) : list string :=
  wi_scan (S (String.length comment)) comment.

(** ** AzureDevOpsService (src/src/services/azureDevOpsService.ts) *)

(** [findIndex]; [None] is [-1]. *)
Fixpoint findIndex {A} (p : A -> bool) (l : list A) : option nat :=
  match l with
  | [] => None
  | x :: l' => if p x then Some 0 else option_map S (findIndex p l')
  end.

(** The body of [getCommitsBetweenTags]'s final callback: keep the commits of
    the reverse-chronological listing [value] before the old tag's commit,
    or all of them when the old commit is not listed. *)
Definition filterAfterOldCommit (value : list GitCommit) (oldCommitId : string)
    : list GitCommit :=
  match findIndex (fun c => String.eqb (commitId c) oldCommitId) value with
  | None => value
  | Some oldCommitIndex => firstn oldCommitIndex value
  end.

Fixpoint somes {A} (l : list (option A)) : list A :=
  match l with
  | [] => []
  | Some a :: l' => a :: somes l'
  | None :: l' => somes l'
  end.

(** [ref.name.startsWith('refs/heads/release/')] *)
Definition is_release_ref (ref : GitRef) : bool :=
  String.prefix "refs/heads/release/" (ref_name ref).

(** The [filter]/[map]/[filter] chain of [getLatestReleaseVersion]. *)
Definition releaseBranches (refs : list GitRef) : list string :=
  somes (map (fun ref => release_capture (ref_name ref)) (filter is_release_ref refs)).

(** [const [aMajor, aMinor] = a.split('.').map(Number)] *)
Definition version_key (v : string) : num * num :=
  let parts := map Number (splitOn "." v) in (nth 0 parts NaN, nth 1 parts NaN).

(** Subtraction of numbers; [None] is NaN. *)
Definition num_sub (x y : num) : option Z :=
  match x, y with Num a, Num b => Some (Z.of_N a - Z.of_N b)%Z | _, _ => None end.

(** [(a, b) => bMajor - aMajor || bMinor - aMinor]: [||] returns its right
    operand when the left one is 0 or NaN.  The subtraction is exact, as
    JavaScript's is for components at most [max_safe]. *)
Definition compareVersions (a b : string) : option Z :=
  let (aMajor, aMinor) := version_key a in
  let (bMajor, bMinor) := version_key b in
  match num_sub bMajor aMajor with
  | Some z => if Z.eqb z 0%Z then num_sub bMinor aMinor else Some z
  | None => num_sub bMinor aMinor
  end.

(** [a] goes before [b] when the comparator is negative (NaN counts as 0). *)
Definition before (a b : string) : bool :=
  match compareVersions a b with Some z => Z.ltb z 0%Z | None => false end.

Fixpoint insert_sorted (x : string) (l : list string) : list string :=
  match l with
  | [] => [x]
  | y :: l' => if before x y then x :: y :: l' else y :: insert_sorted x l'
  end.

(** [Array.prototype.sort] with a comparator: the sort is stable, so with
    a consistent comparator its result is that of this insertion sort. *)
Definition sort (l : list string) : list string :=
  fold_left (fun acc x => insert_sorted x acc) l [].

Section Service.
Variable remote : Remote.

Definition getRepositoryRefs (repositoryId : string) : Svc (list GitRef) :=
  request (CGetRepositoryRefs repositoryId) (fun h => r_refs remote h repositoryId).

Definition getRepositoryTags (repositoryId : string) : Svc (list GitRef) :=
  request (CGetRepositoryTags repositoryId) (fun h => r_tags remote h repositoryId).

(** Fails with ["Main branch not found"] when [heads/main] is absent. *)
Definition getMainBranchCommit (repositoryId : string) : Svc string :=
  request (CGetMainBranchCommit repositoryId)
    (fun h => r_mainBranchCommit remote h repositoryId).

Definition getLatestReleaseVersion (repositoryId : string) : Svc (option string) :=
  catch
    (refs <- getRepositoryRefs repositoryId ;;
     let rb := releaseBranches refs in
     match rb with
     | [] => ret None
     | _ => ret (hd_error (sort rb))
     end)
    (fun _ => ret None).

Definition createBranch (repositoryId branchName sourceBranch : string) : Svc unit :=
  request (CCreateBranch repositoryId branchName sourceBranch)
    (fun h => r_createBranch remote h repositoryId branchName sourceBranch).

Definition createTag (repositoryId tagName commitId message : string) : Svc unit :=
  request (CCreateTag repositoryId tagName commitId message)
    (fun h => r_createTag remote h repositoryId tagName commitId message).

(** [getTagObject(...).taggedObject.objectId]; a response without that
    field is a failure as well (a [TypeError] inside the same [try]). *)
Definition getTagObject (repositoryId tagObjectId : string) : Svc string :=
  request (CGetTagObject repositoryId tagObjectId)
    (fun h => r_tagObject remote h repositoryId tagObjectId).

Definition resolveTagCommitId (repositoryId : string) (tagRef : GitRef)
    (tagName : string) : Svc string :=
  catch (getTagObject repositoryId (ref_objectId tagRef))
        (fun _ => ret (ref_objectId tagRef)).

Definition getCommitsBetweenTags (repositoryId oldTag newTag : string)
    : Svc (list GitCommit) :=
  tags <- getRepositoryTags repositoryId ;;
  let oldTagRef := find (fun t => String.eqb (ref_name t) ("refs/tags/" ++ oldTag)) tags in
  let newTagRef := find (fun t => String.eqb (ref_name t) ("refs/tags/" ++ newTag)) tags in
  match oldTagRef, newTagRef with
  | Some oldRef, Some newRef =>
      oldCommitId <- resolveTagCommitId repositoryId oldRef oldTag ;;
      newCommitId <- resolveTagCommitId repositoryId newRef newTag ;;
      value <- request (CGetCommits repositoryId newCommitId)
                 (fun h => r_commits remote h repositoryId newCommitId) ;;
      ret (filterAfterOldCommit value oldCommitId)
  | _, _ => throw ("Tags not found: " ++ oldTag ++ " or " ++ newTag)
  end.

Definition getCommitWorkItems (repositoryId commitId : string) : Svc (list string) :=
  catch (request (CGetCommitWorkItems repositoryId commitId)
           (fun h => r_commitWorkItems remote h repositoryId commitId))
        (fun _ => ret []).

Definition getPullRequestWorkItems (repositoryId pullRequestId : string)
    : Svc (list string) :=
  catch (request (CGetPullRequestWorkItems repositoryId pullRequestId)
           (fun h => r_pullRequestWorkItems remote h repositoryId pullRequestId))
        (fun _ => ret []).

Definition getWorkItem (workItemId : string) : Svc WorkItem :=
  request (CGetWorkItem workItemId) (fun h => r_workItem remote h workItemId).

End Service.

(** ** ExportBar.processReleases (src/unnamed/part_003) *)

(** [Set<string>.add]: insertion-ordered, no duplicates. *)
Definition setAdd (x : string) (s : list string) : list string :=
  if existsb (String.eqb x) s then s else (s ++ [x])%list.

Definition setAddAll (xs : list string) (s : list string) : list string :=
  fold_left (fun acc x => setAdd x acc) xs s.

(** [new Map(entries)]: setting an existing key replaces its value in place,
    a new key is appended. *)
Fixpoint map_set (k : N) (v : WorkItem) (m : list (N * WorkItem)) : list (N * WorkItem) :=
  match m with
  | [] => [(k, v)]
  | (k', v') :: m' => if N.eqb k k' then (k', v) :: m' else (k', v') :: map_set k v m'
  end.

(** [Array.from(new Map(allWorkItems.map((item) => [item.id, item])).values())] *)
Definition uniqueWorkItems (allWorkItems : list WorkItem) : list WorkItem :=
  map snd (fold_left (fun m item => map_set (wi_id item) item m) allWorkItems []).

(** [repo.bumpType!]: an absent bump type compares unequal to ['major'], so it
    acts as a minor bump in [calculateNewVersion]. *)
Definition bumpOf (repo : Repository) : BumpType :=
  match bumpType repo with Some b => b | None => minor end.

(** [repo.currentVersion && repo.currentVersion !== 'No releases'
      ? `${repo.currentVersion}` : null] *)
Definition oldTagNameOf (repo : Repository) : option string :=
  match currentVersion repo with
  | None => None
  | Some cv => if String.eqb cv "" || String.eqb cv "No releases" then None else Some cv
  end.

Section Pipeline.
Variable remote : Remote.

(** The component's mutable state during a run: the service's call history,
    the store's [processingResults] and the local [allWorkItems]. *)
Record St := mkSt {
  history : list Call;
  processingResults : list ReleaseProcessingResult;
  allWorkItems : list WorkItem }.

Definition M := SE St.

(** A service call inside the component: it only touches the history. *)
Definition lift {A} (m : Svc A) : M A :=
  fun st => let (r, h) := m (history st) in
            (r, mkSt h (processingResults st) (allWorkItems st)).

Definition addProcessingResult (r : ReleaseProcessingResult) : M unit :=
  fun st => (Ok tt, mkSt (history st) (processingResults st ++ [r])%list (allWorkItems st)).

Definition pushAllWorkItems (wi : WorkItem) : M unit :=
  fun st => (Ok tt, mkSt (history st) (processingResults st) (allWorkItems st ++ [wi])%list).

(** "Collect work items from commits": the loop over [commits] filling the
    set [workItemIds]. *)
Fixpoint collectWorkItemIds (repositoryId : string) (commits : list GitCommit)
    (workItemIds : list string) : Svc (list string) :=
  match commits with
  | [] => ret workItemIds
  | commit :: rest =>
      let s1 := setAddAll (map wir_id (commit_workItems commit)) workItemIds in
      let s2 := match prMatch (comment commit) with
                | Some n => setAdd n s1
                | None => s1
                end in
      let s3 := setAddAll (wiMatches (comment commit)) s2 in
      ids <- getCommitWorkItems remote repositoryId (commitId commit) ;;
      collectWorkItemIds repositoryId rest (setAddAll ids s3)
  end.

(** "Fetch work item details": each fetched item is pushed to the local
    [workItems] (the result) and to [allWorkItems]; a failed fetch is caught. *)
Fixpoint fetchWorkItems (workItemIds : list string) : M (list WorkItem) :=
  match workItemIds with
  | [] => ret []
  | id :: rest =>
      got <- catch (workItem <- lift (getWorkItem remote id) ;;
                    pushAllWorkItems workItem ;;;
                    ret [workItem])
                   (fun _ => ret []) ;;
      more <- fetchWorkItems rest ;;
      ret (got ++ more)%list
  end.

(** Step 4, run only when there is an old tag; its failures are caught and
    leave [workItems] empty.  Only [getCommitsBetweenTags] can fail in the
    [try], before anything is pushed. *)
Definition workItemsStage (repositoryId : string) (oldTagName : option string)
    (newTagName : string) : M (list WorkItem) :=
  match oldTagName with
  | None => ret []
  | Some oldTag =>
      catch (commits <- lift (getCommitsBetweenTags remote repositoryId oldTag newTagName) ;;
             workItemIds <- lift (collectWorkItemIds repositoryId commits []) ;;
             fetchWorkItems workItemIds)
            (fun _ => ret [])
  end.

(** Steps 1 to 3: main commit, release branch, annotated tag. *)
Definition createReleaseRefs (repo : Repository) (newVersion : string) : Svc unit :=
  mainCommitId <- getMainBranchCommit remote (repo_id repo) ;;
  createBranch remote (repo_id repo) ("refs/heads/release/" ++ newVersion ++ ".x")
    "refs/heads/main" ;;;
  createTag remote (repo_id repo) newVersion mainCommitId ("Release " ++ newVersion).

(** The body of [for (const repo of selectedRepos)]. *)
Definition processRepo (repo : Repository) : M unit :=
  catch
    (let newVersion := calculateNewVersion (currentVersion repo) (bumpOf repo) in
     let newTagName := newVersion in
     let oldTagName := oldTagNameOf repo in
     lift (createReleaseRefs repo newVersion) ;;;
     workItems <- workItemsStage (repo_id repo) oldTagName newTagName ;;
     addProcessingResult (mkResult (repo_name repo) true (Some newVersion) None
                                   (Some workItems)))
    (fun error => addProcessingResult (mkResult (repo_name repo) false None
                                                (Some error) None)).

Fixpoint processRepos (repos : list Repository) : M unit :=
  match repos with
  | [] => ret tt
  | repo :: rest => processRepo repo ;;; processRepos rest
  end.

(** [processReleases] from a call history [h]: the recorded results, the
    consolidated work items, and the history afterwards. *)
Definition processReleases (repositories : list Repository) (h : list Call)
    : list ReleaseProcessingResult * list WorkItem * list Call :=
  let selectedRepos := filter selected repositories in
  let st := snd (processRepos selectedRepos (mkSt h [] [])) in
  (processingResults st, uniqueWorkItems (allWorkItems st), history st).

End Pipeline.

(** ** A concrete server used by the examples below

    Repositories have the tags [1.0] (object [t0]) and [1.1] (object [t1]),
    both lightweight (fetching the tag object fails).  Listing commits from
    any commit returns [commits].  Pull request 42 is linked to work item
    400; the per-commit link query returns nothing.  A work item is served
    with the numeric value of the requested id, and its title records
    whether that id had already been served (an edit in between). *)
Definition served_before (h : list Call) (id : string) : bool :=
  existsb (fun c => match c with CGetWorkItem i => String.eqb i id | _ => false end) h.

Definition demoRemote (commits : list GitCommit) : Remote :=
  mkRemote
    (fun _ _ => Ok [])
    (fun _ _ => Ok [mkGitRef "refs/tags/1.0" "t0"; mkGitRef "refs/tags/1.1" "t1"])
    (fun _ _ => Ok "m1")
    (fun _ _ _ _ => Ok tt)
    (fun _ _ _ _ _ => Ok tt)
    (fun _ _ _ => Err "API Error: 404 - tag object not found")
    (fun _ _ _ => Ok commits)
    (fun _ _ _ => Ok [])
    (fun _ _ pr => if String.eqb pr "42" then Ok ["400"] else Ok [])
    (fun h id =>
       Ok (mkWorkItem (match digits_val id 0 with Some n => n | None => 0%N end)
             "Bug" (if served_before h id then "edited" else "original")
             ("https://dev.azure.com/_apis/wit/workItems/" ++ id))).

Definition demoCommitPR : GitCommit :=
  mkGitCommit "c2" "Merged PR 42: fixes AB#100 and #200" [mkWorkItemReference "300" ""].

Definition demoCommitOld : GitCommit := mkGitCommit "t0" "Release 1.0" [].

Definition demoRepo (name cv : string) : Repository :=
  mkRepository name name (Some cv) true (Some minor).

(** The successful answers of a list of answers, in order. *)
Fixpoint oks {A} (l : list (outcome A)) : list A :=
  match l with
  | [] => []
  | Ok a :: l' => a :: oks l'
  | Err _ :: l' => oks l'
  end.

(** The work-item identifiers requested in a history, oldest first. *)
Definition workItemRequests (h : list Call) : list string :=
  rev (somes (map (fun c => match c with CGetWorkItem i => Some i | _ => None end) h)).

(** The commit carrying a reference [#042] while the per-commit link query is
    not used: the same work item 42 under two spellings. *)
Definition demoCommit042 : GitCommit :=
  mkGitCommit "c3" "fixes #042" [mkWorkItemReference "42" ""].

(** The work items a recorded result contributes: its list when successful. *)
Definition resultItems (pr : ReleaseProcessingResult) : list WorkItem :=
  if pr_success pr then match pr_workItems pr with Some l => l | None => [] end else [].

(** [demoRemote] in which creating a tag fails in repository [B]. *)
Definition tagFailRemote : Remote :=
  let base := demoRemote [demoCommitPR; demoCommitOld] in
  mkRemote (r_refs base) (r_tags base) (r_mainBranchCommit base) (r_createBranch base)
    (fun h repositoryId tagName commitId message =>
       if String.eqb repositoryId "B" then Err "API Error: 409 - tag already exists"
       else Ok tt)
    (r_tagObject base) (r_commits base) (r_commitWorkItems base)
    (r_pullRequestWorkItems base) (r_workItem base).

Definition demoBatch : list Repository :=
  [demoRepo "A" "1.0"; demoRepo "B" "1.0"; demoRepo "C" "No releases"].

(** Identifiers in order of first appearance, without repetition. *)
Definition keys_first (l : list N) : list N :=
  fold_left (fun acc k => if existsb (N.eqb k) acc then acc else (acc ++ [k])%list) l [].

(** The last record with identifier [k] in [l]. *)
Definition last_with_id (l : list WorkItem) (k : N) : option WorkItem :=
  fold_left (fun o w => if N.eqb (wi_id w) k then Some w else o) l None.

Definition demoWorkItem (id : N) (title : string) : WorkItem :=
  mkWorkItem id "Bug" title ("https://dev.azure.com/_apis/wit/workItems/" ++ showN id).

(** The Version order: lexicographic on (major, minor), both compared
    numerically, for strings that parse as two numbers. *)
Definition version_leb (a b : string) : bool :=
  match version_key a, version_key b with
  | (Num aMajor, Num aMinor), (Num bMajor, Num bMinor) =>
      (aMajor <? bMajor)%N || ((aMajor =? bMajor)%N && (aMinor <=? bMinor)%N)
  | _, _ => false
  end.

(** [v] parses as a version: both components of [split('.').map(Number)]
    are numbers. *)
Definition parsed (v : string) : Prop :=
  exists aMajor aMinor, version_key v = (Num aMajor, Num aMinor).

(** [v] parses as a version whose two components are at most [max_safe],
    the range where JavaScript's [Number] and the comparator's subtractions
    are exact. *)
Definition safe_version (v : string) : bool :=
  match version_key v with
  | (Num aMajor, Num aMinor) => (aMajor <=? max_safe)%N && (aMinor <=? max_safe)%N
  | _ => false
  end.

Fixpoint all_digits (s : string) : bool :=
  match s with
  | EmptyString => true
  | String c s' => is_digit c && all_digits s'
  end.

(** The concrete server above, listing the refs [refs]. *)
Definition refsRemote (refs : list GitRef) : Remote :=
  let d := demoRemote [] in
  mkRemote (fun _ _ => Ok refs) (r_tags d) (r_mainBranchCommit d) (r_createBranch d)
    (r_createTag d) (r_tagObject d) (r_commits d) (r_commitWorkItems d)
    (r_pullRequestWorkItems d) (r_workItem d).

Definition demoRefs : list GitRef :=
  [mkGitRef "refs/heads/main" "m1"; mkGitRef "refs/heads/release/1.2.x" "b1";
   mkGitRef "refs/heads/release/1.10.x" "b2"; mkGitRef "refs/heads/release/foo" "b3";
   mkGitRef "refs/heads/release/2.x" "b4"].

(** ** [retryAsync] (utils/retryUtils.ts)

    [fn] is the wrapped call: [fn attempt] is the outcome of its
    [attempt]-th invocation (1-based).  The observable events are the calls
    and the waits [await new Promise(resolve => setTimeout(resolve, delay))],
    in chronological order.  Options are naturals; a thrown value is an
    [Error] (truthy), represented by its message. *)
Inductive RetryEvent := RCall (attempt : nat) | RSleep (ms : N).

Section Retry.
Context {A : Type}.
Variable fn : nat -> outcome A.
Variables (maxAttempts : nat) (delayMs backoffMultiplier : N).

(** The [for (let attempt = ...; attempt <= maxAttempts; attempt++)] loop,
    [remaining] being the number of iterations left. *)
Fixpoint retry_from (remaining attempt : nat) (lastError : option string)
    : outcome A * list RetryEvent :=
  match remaining with
  | O => (Err (match lastError with
               | Some e => e
               | None => "Max retry attempts reached"
               end), [])
  | S r =>
      match fn attempt with
      | Ok v => (Ok v, [RCall attempt])
      | Err e =>
          let waits :=
            if Nat.ltb attempt maxAttempts
            then [RSleep (delayMs * backoffMultiplier ^ N.of_nat (attempt - 1))]
            else [] in
          let (res, evs) := retry_from r (S attempt) (Some e) in
          (res, RCall attempt :: waits ++ evs)
      end
  end.

Definition retryAsync : outcome A * list RetryEvent :=
  retry_from maxAttempts 1 None.

End Retry.

(** The defaults [maxAttempts = 3, delayMs = 1000, backoffMultiplier = 2],
    used by every call of the service. *)
Definition retryAsync_default {A} (fn : nat -> outcome A) : outcome A * list RetryEvent :=
  retryAsync fn 3 1000 2.

(** Attempts [a..a+k-1], each followed by its back-off wait. *)
Definition schedule_from (delayMs backoffMultiplier : N) (a k : nat) : list RetryEvent :=
  concat (map (fun i => [RCall i; RSleep (delayMs * backoffMultiplier ^ N.of_nat (i - 1))])
              (seq a k)).

(** ** [stripHtmlTags] (services/azureDevOpsService.ts)

    Strings are sequences of UTF-16 code units below 256. *)

(** [html.replace(/<[^>]*>/g, '')]: scanning left to right, a ['<'] opens a
    candidate tag, the next ['>'] closes it and the whole tag is deleted; an
    unclosed candidate (no ['>'] after it) is kept as it is. *)
Fixpoint strip_tags_go (inside : option string) (s : string) : string :=
  match s with
  | EmptyString => match inside with None => "" | Some buf => buf end
  | String c s' =>
      match inside with
      | None =>
          if Ascii.eqb c "<" then strip_tags_go (Some (String c "")) s'
          else String c (strip_tags_go None s')
      | Some buf =>
          if Ascii.eqb c ">" then strip_tags_go None s'
          else strip_tags_go (Some (buf ++ String c "")) s'
      end
  end.

Definition replace_tags (s : string) : string := strip_tags_go None s.

(** [while (result !== previousResult) { previousResult = result;
      result = result.replace(...); }] from [result = html],
    [previousResult = ''] and [html <> '']: iterate until a fixpoint.
    Every iteration that changes the string shortens it, so [length html + 1]
    iterations always reach the fixpoint ([strip_loop_fixpoint] below). *)
Fixpoint strip_loop (fuel : nat) (result : string) : string :=
  match fuel with
  | O => result
  | S f =>
      let r := replace_tags result in
      if String.eqb r result then result else strip_loop f r
  end.

(** Whether the input at the current position begins with [p]. *)
Fixpoint starts_with (p s : string) : bool :=
  match p with
  | EmptyString => true
  | String a p' =>
      match s with
      | EmptyString => false
      | String b s' => Ascii.eqb a b && starts_with p' s'
      end
  end.

(** [s.replace(/pat/g, rep)] for a non-empty literal pattern: matches are
    found left to right and do not overlap; [skip] counts the characters of
    the current match still to be consumed. *)
Fixpoint replace_from (pat rep : string) (skip : nat) (s : string) : string :=
  match s with
  | EmptyString => EmptyString
  | String c s' =>
      match skip with
      | S k => replace_from pat rep k s'
      | O =>
          if starts_with pat s
          then rep ++ replace_from pat rep (String.length pat - 1) s'
          else String c (replace_from pat rep 0 s')
      end
  end.

Definition replace_all (pat rep s : string) : string := replace_from pat rep 0 s.

Definition dquote : ascii := "034"%char.

(** The entity-decoding chain, [&amp;] last. *)
Definition decode_entities (s : string) : string :=
  replace_all "&amp;" "&"
    (replace_all "&#39;" "'"
      (replace_all "&quot;" (String dquote "")
        (replace_all "&gt;" ">"
          (replace_all "&lt;" "<"
            (replace_all "&nbsp;" " " s))))).

Definition stripHtmlTags (html : string) : string :=
  if String.eqb html "" then ""
  else js_trim (decode_entities (strip_loop (String.length html + 1) html)).

(** Whether [s] contains a ['<'] followed, later, by a ['>']: a match of
    [/<[^>]*>/]. *)
Fixpoint contains_gt (s : string) : bool :=
  match s with
  | EmptyString => false
  | String c s' => Ascii.eqb c ">" || contains_gt s'
  end.

Fixpoint has_tag (s : string) : bool :=
  match s with
  | EmptyString => false
  | String c s' => (Ascii.eqb c "<" && contains_gt s') || has_tag s'
  end.

(** HTML escaping of the five characters the decoder knows (a test input
    generator, not code of the repository). *)
Definition entity_of (c : ascii) : string :=
  if Ascii.eqb c "&" then "&amp;"
  else if Ascii.eqb c "<" then "&lt;"
  else if Ascii.eqb c ">" then "&gt;"
  else if Ascii.eqb c dquote then "&quot;"
  else if Ascii.eqb c "'" then "&#39;"
  else String c "".

(** Escaping of the characters of [keep] only. *)
Definition escape_some (keep : list ascii) (c : ascii) : string :=
  if existsb (Ascii.eqb c) keep then entity_of c else String c "".

Fixpoint concat_map_str (f : ascii -> string) (s : string) : string :=
  match s with
  | EmptyString => EmptyString
  | String c s' => f c ++ concat_map_str f s'
  end.

Definition escapeHtml (s : string) : string :=
  concat_map_str (escape_some ["&"; "<"; ">"; dquote; "'"]%char) s.

Fixpoint last_char (s : string) : option ascii :=
  match s with
  | EmptyString => None
  | String c EmptyString => Some c
  | String _ s' => last_char s'
  end.

(** Neither the first nor the last character of [s] is white space. *)
Definition no_edge_space (s : string) : bool :=
  match s, last_char s with
  | String c _, Some l => negb (is_js_space c) && negb (is_js_space l)
  | _, _ => true
  end.

(** ** Export (ExportBar [handleExport], services/csvExporter.ts) *)

Record ReleaseNote := mkReleaseNote {
  rn_type : string; rn_id : N; rn_title : string; rn_url : string }.

(** The object [exportToCSV] hands to [Papa.unparse] for one note. *)
Record CsvRow := mkCsvRow {
  row_Prefix : string; row_Id : N; row_Content : string;
  row_Description : string; row_Url : string }.

(** [note.description || ''] with no [description] on the notes built by
    [handleExport]. *)
Definition csvRow (note : ReleaseNote) : CsvRow :=
  mkCsvRow (rn_type note) (rn_id note) (rn_title note) "" (rn_url note).

(** The observable effects of an export: the work-item updates and the
    download of the CSV file, most recent first. *)
Inductive ExportEvent :=
  | EUpdateWorkItem (workItemId : N) (integrationBuild : string)
  | EDownload (fileName : string) (rows : list CsvRow).

Definition mainRepoName : string := "CareConnect.Pharmacy".

(** [mainRepo?.currentVersion || '1.0'] *)
Definition mainVersion (repositories : list Repository) : string :=
  match find (fun r => String.eqb (repo_name r) mainRepoName) repositories with
  | Some r =>
      match currentVersion r with
      | Some v => if String.eqb v "" then "1.0" else v
      | None => "1.0"
      end
  | None => "1.0"
  end.

(** [mainRepoResult?.newVersion || mainVersion] *)
Definition integrationBuild (processingResults : list ReleaseProcessingResult)
    (repositories : list Repository) : string :=
  match find (fun r => String.eqb (pr_repository r) mainRepoName) processingResults with
  | Some r =>
      match pr_newVersion r with
      | Some v => if String.eqb v "" then mainVersion repositories else v
      | None => mainVersion repositories
      end
  | None => mainVersion repositories
  end.

Definition toReleaseNote (item : WorkItem) : ReleaseNote :=
  mkReleaseNote (wi_type item) (wi_id item) (wi_title item) (wi_url item).

(** [exportToCSV(releaseNotes, mainVersion)] *)
Definition exportToCSV (releaseNotes : list ReleaseNote) (mainVersion : string)
    : ExportEvent :=
  EDownload ("ReleaseNote-" ++ mainVersion ++ ".csv") (map csvRow releaseNotes).

(** [for (const item of consolidatedWorkItems) { try { await
    service.updateWorkItem(item.id, integrationBuild); } catch { ... } }];
    [updateWorkItem h id build] is the server's answer. *)
Fixpoint updateWorkItems (updateWorkItem : list ExportEvent -> N -> string -> outcome unit)
    (items : list WorkItem) (build : string) (h : list ExportEvent) : list ExportEvent :=
  match items with
  | [] => h
  | item :: rest =>
      let h' := EUpdateWorkItem (wi_id item) build :: h in
      match updateWorkItem h (wi_id item) build with
      | Ok _ => updateWorkItems updateWorkItem rest build h'
      | Err _ => updateWorkItems updateWorkItem rest build h'
      end
  end.

Definition handleExport (updateWorkItem : list ExportEvent -> N -> string -> outcome unit)
    (consolidatedWorkItems : list WorkItem) (processingResults : list ReleaseProcessingResult)
    (repositories : list Repository) (h : list ExportEvent) : list ExportEvent :=
  match consolidatedWorkItems with
  | [] => h
  | _ =>
      let releaseNotes := map toReleaseNote consolidatedWorkItems in
      let build := integrationBuild processingResults repositories in
      let h' := updateWorkItems updateWorkItem consolidatedWorkItems build h in
      exportToCSV releaseNotes build :: h'
  end.

(** [selectedRepos.length > 0 && selectedRepos.every((r) => r.bumpType)] *)
Definition canProcess (repositories : list Repository) : bool :=
  let selectedRepos := filter selected repositories in
  Nat.ltb 0 (length selectedRepos) && forallb (fun r => match bumpType r with Some _ => true | None => false end) selectedRepos.

(** ** Repository selection (RepoSelectorAndConfig and the store) *)

(** The [Partial<Repository>] updates passed by the callers. *)
Record RepoUpdate := mkRepoUpdate { u_selected : option bool; u_bumpType : option BumpType }.

(** [{ ...repo, ...updates }] *)
Definition mergeRepo (repo : Repository) (u : RepoUpdate) : Repository :=
  mkRepository (repo_id repo) (repo_name repo) (currentVersion repo)
    (match u_selected u with Some b => b | None => selected repo end)
    (match u_bumpType u with Some b => Some b | None => bumpType repo end).

(** The store's [updateRepository(name, updates)]. *)
Definition updateRepository (name : string) (u : RepoUpdate) (repositories : list Repository)
    : list Repository :=
  map (fun repo => if String.eqb (repo_name repo) name then mergeRepo repo u else repo)
      repositories.

(** [forEach] over the rendered list [snapshot], each call updating the
    current store. *)
Definition updateEach (snapshot : list Repository) (u : RepoUpdate)
    (repositories : list Repository) : list Repository :=
  fold_left (fun st repo => updateRepository (repo_name repo) u st) snapshot repositories.

(** [handleSelectAll]: the new [selectAll] flag and repositories. *)
Definition handleSelectAll (selectAll : bool) (repositories : list Repository)
    : bool * list Repository :=
  let newSelectAll := negb selectAll in
  (newSelectAll, updateEach repositories (mkRepoUpdate (Some newSelectAll) None) repositories).

(** [handleRepoToggle(repoName)]: the repositories and the [selectAll]
    flag afterwards. *)
Definition handleRepoToggle (repoName : string) (selectAll : bool)
    (repositories : list Repository) : list Repository * bool :=
  match find (fun r => String.eqb (repo_name r) repoName) repositories with
  | None => (repositories, selectAll)
  | Some repo =>
      (updateRepository repoName (mkRepoUpdate (Some (negb (selected repo))) None) repositories,
       forallb (fun r => if String.eqb (repo_name r) repoName then negb (selected repo)
                         else selected r) repositories)
  end.

(** [handleBulkMajor] / [handleBulkMinor] *)
Definition handleBulk (b : BumpType) (repositories : list Repository) : list Repository :=
  updateEach (filter selected repositories) (mkRepoUpdate None (Some b)) repositories.

(** [handleBumpTypeChange(repoName, bumpType)] *)
Definition handleBumpTypeChange (repoName : string) (b : BumpType)
    (repositories : list Repository) : list Repository :=
  updateRepository repoName (mkRepoUpdate None (Some b)) repositories.

(** ** The wizard's step navigation (App) *)

Definition stepCount : Z := 3.

(** [setCurrentStep(Math.min(currentStep + 1, steps.length - 1))] *)
Definition handleNext (currentStep : Z) : Z := Z.min (currentStep + 1) (stepCount - 1).

(** [setCurrentStep(Math.max(currentStep - 1, 0))] *)
Definition handleBack (currentStep : Z) : Z := Z.max (currentStep - 1) 0.

Inductive NavAction := Next | Back.

Definition navigate (currentStep : Z) (actions : list NavAction) : Z :=
  fold_left (fun s a => match a with Next => handleNext s | Back => handleBack s end)
            actions currentStep.

(** ** Loading the repositories (RepoSelectorAndConfig [loadRepositoryVersions]) *)

Section Loader.
Variable remote : Remote.

(** The body of [for (const repoName of repoList)]. *)
Definition loadRepository (repoName : string) : Svc Repository :=
  catch
    (version <- getLatestReleaseVersion remote repoName ;;
     ret (mkRepository repoName repoName
            (Some (match version with
                   | Some v => if String.eqb v "" then "No releases" else v
                   | None => "No releases"
                   end)) false None))
    (fun _ => ret (mkRepository repoName repoName (Some "Error loading") false None)).

Fixpoint loadRepositories (repoList : list string) : Svc (list Repository) :=
  match repoList with
  | [] => ret []
  | repoName :: rest =>
      repo <- loadRepository repoName ;;
      repos <- loadRepositories rest ;;
      ret (repo :: repos)
  end.

(** [selectedRepositoryNames.length > 0 ? selectedRepositoryNames :
    ['TestPipelines']], then the loop. *)
Definition loadRepositoryVersions (selectedRepositoryNames : list string)
    : Svc (list Repository) :=
  let repoList := match selectedRepositoryNames with
                  | [] => ["TestPipelines"]
                  | _ => selectedRepositoryNames
                  end in
  loadRepositories repoList.

End Loader.

(** ** The settings dialog (SettingsMenu) *)

(** The [{ id, name }] entries returned by [getAllRepositories]. *)
Record AzureRepo := mkAzureRepo { ar_id : string; ar_name : string }.

Module SettingsMenu.

(** [handleSelectAll]: the new [selectAll] flag and [localSelection]. *)
Definition handleSelectAll (selectAll : bool) (allRepositories : list AzureRepo)
    : bool * list string :=
  let newSelectAll := negb selectAll in
  (newSelectAll, if newSelectAll then map ar_name allRepositories else []).

(** [handleRepoToggle(repoName)]: the new [localSelection] and the
    [selectAll] flag set inside the updater. *)
Definition handleRepoToggle (repoName : string) (allRepositories : list AzureRepo)
    (prev : list string) : list string * bool :=
  let newSelection := if existsb (String.eqb repoName) prev
                      then filter (fun name => negb (String.eqb name repoName)) prev
                      else (prev ++ [repoName])%list in
  (newSelection, Nat.eqb (length newSelection) (length allRepositories)).

(** [handleSave]: the names passed to [setSelectedRepositoryNames], or the
    error shown. *)
Definition handleSave (localSelection : list string) : outcome (list string) :=
  match localSelection with
  | [] => Err "Please select at least one repository"
  | _ => Ok localSelection
  end.

End SettingsMenu.

(** The sentinel test of [calculateNewVersion]: [!currentVersion ||
    currentVersion === 'No releases' || currentVersion === 'Error loading']. *)
Definition is_sentinel (currentVersion : option string) : bool :=
  match currentVersion with
  | None => true
  | Some cv => String.eqb cv "" || String.eqb cv "No releases" || String.eqb cv "Error loading"
  end.

(* DEFINITIONS-END *)

(** * Proofs *)

Local Open Scope list_scope.

(** ** Decimal strings *)

Example calculateNewVersion_ex1 : calculateNewVersion (Some "2.7") minor = "2.8".
Proof. reflexivity. Qed.
Example calculateNewVersion_ex2 : calculateNewVersion (Some "2.7") major = "3.0".
Proof. reflexivity. Qed.
Example prMatch_ex : prMatch "Merged PR 42: fixes AB#100 and #200" = Some "42".
Proof. reflexivity. Qed.
Example wiMatches_ex : wiMatches "Merged PR 42: fixes AB#100 and #200" = ["100"; "200"].
Proof. reflexivity. Qed.
Example release_capture_ex :
  map release_capture ["refs/heads/release/12.3.x"; "refs/heads/release/1.2.3.x";
                       "refs/heads/release/4.5.xyz"; "refs/heads/release/main"]
  = [Some "12.3"; None; Some "4.5"; None].
Proof. reflexivity. Qed.
Example calculateNewVersion_ex3 : calculateNewVersion (Some "Error loading") minor = "0.1".
Proof. reflexivity. Qed.

(** Evaluates the digit test and value of a literal character. *)
Ltac digit_step :=
  match goal with |- context [is_digit ?c] =>
    let b := eval vm_compute in (is_digit c) in change (is_digit c) with b;
    let v := eval vm_compute in (digit_val c) in change (digit_val c) with v
  end; cbv iota.

Lemma digits_val_pos (d : Decimal.uint) (acc : positive) :
  digits_val (string_of_uint d) (Npos acc) = Some (Npos (Pos.of_uint_acc d acc)).
Proof.
  revert acc; induction d; intros acc; [reflexivity | ..];
    cbn [string_of_uint digits_val Pos.of_uint_acc]; rewrite <- IHd;
    digit_step; f_equal; lia.
Qed.

Lemma digits_val_uint (d : Decimal.uint) :
  digits_val (string_of_uint d) 0 = Some (N.of_uint d).
Proof.
  induction d; [reflexivity | ..]; cbn [string_of_uint digits_val N.of_uint Pos.of_uint];
    digit_step; [exact IHd | ..]; rewrite <- digits_val_pos; reflexivity.
Qed.

Lemma digit_not_space (c : ascii) : is_digit c = true -> is_js_space c = false.
Proof.
  unfold is_digit, is_js_space. cbv zeta. intros H.
  apply andb_true_iff in H as [H1 H2]. apply Nat.leb_le in H1, H2.
  apply Bool.not_true_iff_false. intros H.
  apply orb_true_iff in H as [H|H]; [apply orb_true_iff in H as [H|H]|].
  - apply andb_true_iff in H as [_ Hb]. apply Nat.leb_le in Hb. lia.
  - apply Nat.eqb_eq in H. lia.
  - apply Nat.eqb_eq in H. lia.
Qed.

Lemma js_trim_digits (s : string) : all_digits s = true -> js_trim s = s.
Proof.
  intros H. unfold js_trim.
  assert (Hs : trim_start s = s).
  { destruct s as [|c s']; [reflexivity|]. simpl in H. apply andb_true_iff in H as [Hc _].
    simpl. rewrite (digit_not_space c Hc). reflexivity. }
  rewrite Hs. clear Hs. induction s as [|c s' IH]; [reflexivity|].
  simpl in H. apply andb_true_iff in H as [Hc Hd].
  simpl. rewrite (IH Hd), (digit_not_space c Hc), andb_false_r. reflexivity.
Qed.

Lemma all_digits_uint (d : Decimal.uint) : all_digits (string_of_uint d) = true.
Proof. induction d; [reflexivity|..]; simpl; exact IHd. Qed.

Lemma Number_showN (n : N) : Number (showN n) = Num n.
Proof.
  unfold Number, showN. rewrite js_trim_digits by apply all_digits_uint.
  rewrite digits_val_uint, DecimalN.Unsigned.of_to.
  reflexivity.
Qed.

Lemma to_uint_not_Nil (n : N) : N.to_uint n <> Decimal.Nil.
Proof.
  intros E. assert (Hn : n = 0%N).
  { rewrite <- (DecimalN.Unsigned.of_to n), E. reflexivity. }
  subst n. discriminate E.
Qed.

Lemma showN_head (n : N) :
  exists c s, showN n = String c s /\ is_digit c = true.
Proof.
  unfold showN. pose proof (to_uint_not_Nil n) as H.
  destruct (N.to_uint n); [congruence | ..]; simpl; eauto.
Qed.

Lemma splitOn_uint (d : Decimal.uint) (s r : string) (rs : list string) :
  splitOn "." s = r :: rs ->
  splitOn "." (string_of_uint d ++ s)%string = (string_of_uint d ++ r)%string :: rs.
Proof.
  intros H; induction d; simpl; try exact H; rewrite IHd; reflexivity.
Qed.

Lemma append_empty (s : string) : (s ++ "")%string = s.
Proof. induction s; simpl; congruence. Qed.

Lemma splitOn_version (M m : N) :
  splitOn "." (version_string M m) = [showN M; showN m].
Proof.
  unfold version_string, showN.
  rewrite (splitOn_uint _ _ "" [string_of_uint (N.to_uint m)]).
  - rewrite append_empty. reflexivity.
  - simpl. f_equal. induction (N.to_uint m); simpl; try reflexivity;
    rewrite IHu; reflexivity.
Qed.

Lemma digit_string_neq (n : N) (s t : string) (c : ascii) :
  is_digit c = false -> (showN n ++ s)%string <> String c t.
Proof.
  intros Hc E. destruct (showN_head n) as (c' & s' & Hs & Hd).
  rewrite Hs in E. simpl in E. injection E as -> _. congruence.
Qed.

Lemma version_string_not_sentinel (M m : N) :
  (String.eqb (version_string M m) "" || String.eqb (version_string M m) "No releases"
   || String.eqb (version_string M m) "Error loading") = false.
Proof.
  destruct (showN_head M) as (c & s & Hs & _).
  assert (H1 : String.eqb (version_string M m) "" = false).
  { apply String.eqb_neq. unfold version_string. rewrite Hs. discriminate. }
  rewrite H1; simpl.
  rewrite (proj2 (String.eqb_neq _ _)), (proj2 (String.eqb_neq _ _)); try reflexivity;
    apply digit_string_neq; reflexivity.
Qed.

(** ** VersionPolicy *)

(** C4: the bump of a real version [(M, m)] is [(M+1, 0)] for a major bump and
    [(M, m+1)] for a minor one (versions within JavaScript's exact integer
    range); each sentinel current version (no version, ["No releases"],
    ["Error loading"]) is seeded to [1.0] by a major and [0.1] by a minor
    bump. *)
Theorem calculateNewVersion_policy (M m : N)
    (HM : (M < max_safe)%N) (Hm : (m < max_safe)%N) :
  calculateNewVersion (Some (version_string M m)) major = version_string (M + 1) 0 /\
  calculateNewVersion (Some (version_string M m)) minor = version_string M (m + 1) /\
  (forall b, calculateNewVersion None b = calculateNewVersion (Some "No releases") b /\
             calculateNewVersion (Some "Error loading") b = calculateNewVersion (Some "No releases") b) /\
  calculateNewVersion (Some "No releases") major = version_string 1 0 /\
  calculateNewVersion (Some "No releases") minor = version_string 0 1.
Proof.
  unfold calculateNewVersion at 1 2. rewrite !version_string_not_sentinel.
  rewrite splitOn_version. cbn [map nth]. rewrite !Number_showN.
  repeat split; try reflexivity; intros []; split; reflexivity.
Qed.

Lemma calculateNewVersion_policy_witness :
  (2 < max_safe)%N /\ (7 < max_safe)%N /\
  calculateNewVersion (Some "2.7") major = "3.0" /\
  calculateNewVersion (Some "2.7") minor = "2.8".
Proof.
  split; [reflexivity | split; [reflexivity | ]].
  destruct (calculateNewVersion_policy 2 7 eq_refl eq_refl) as (H1 & H2 & _).
  split; [exact H1 | exact H2].
Defined.

(** ** RefResolver and CommitRangeComputer *)

Lemma findIndex_none {A} (p : A -> bool) (l : list A) :
  (forall x, In x l -> p x = false) -> findIndex p l = None.
Proof.
  induction l as [|x l IH]; intros H; simpl; [reflexivity|].
  rewrite (H x (or_introl eq_refl)), IH; [reflexivity|].
  intros y Hy; apply H; right; exact Hy.
Qed.

Lemma findIndex_first {A} (p : A -> bool) (pre post : list A) (x : A) :
  (forall y, In y pre -> p y = false) -> p x = true ->
  findIndex p (pre ++ x :: post) = Some (length pre).
Proof.
  induction pre as [|y pre IH]; intros Hpre Hx; simpl; [rewrite Hx; reflexivity|].
  rewrite (Hpre y (or_introl eq_refl)), IH; [reflexivity| |exact Hx].
  intros z Hz; apply Hpre; right; exact Hz.
Qed.

Lemma eqb_commit_false (oldCommitId : string) (l : list GitCommit) :
  ~ In oldCommitId (map commitId l) ->
  forall c, In c l -> String.eqb (commitId c) oldCommitId = false.
Proof.
  intros Hn c Hc. apply String.eqb_neq. intros E. apply Hn.
  rewrite <- E. apply in_map. exact Hc.
Qed.

(** C3: over a fetched reverse-chronological listing, the tag-to-tag range
    is the prefix strictly before the (first) position of the old tag's
    commit, and the whole listing when the old commit is not listed. *)
Theorem filterAfterOldCommit_range (value : list GitCommit) (oldCommitId : string) :
  (forall pre old post,
     value = pre ++ old :: post -> commitId old = oldCommitId ->
     ~ In oldCommitId (map commitId pre) ->
     filterAfterOldCommit value oldCommitId = pre) /\
  (~ In oldCommitId (map commitId value) ->
     filterAfterOldCommit value oldCommitId = value).
Proof.
  split.
  - intros pre old post -> Hold Hpre. unfold filterAfterOldCommit.
    rewrite (findIndex_first _ pre post old).
    + rewrite firstn_app, Nat.sub_diag, firstn_all; simpl. apply app_nil_r.
    + exact (eqb_commit_false _ _ Hpre).
    + apply String.eqb_eq; exact Hold.
  - intros Hn. unfold filterAfterOldCommit.
    rewrite findIndex_none; [reflexivity|]. exact (eqb_commit_false _ _ Hn).
Qed.

Definition mkC (id : string) : GitCommit := mkGitCommit id "" [].

Lemma filterAfterOldCommit_range_witness :
  filterAfterOldCommit (map mkC ["c5"; "c4"; "c3"; "c2"; "c1"]) "c2"
    = map mkC ["c5"; "c4"; "c3"] /\
  filterAfterOldCommit (map mkC ["c5"; "c4"; "c3"; "c2"; "c1"]) "c0"
    = map mkC ["c5"; "c4"; "c3"; "c2"; "c1"].
Proof.
  split.
  - apply (proj1 (filterAfterOldCommit_range _ "c2") (map mkC ["c5"; "c4"; "c3"])
             (mkC "c2") (map mkC ["c1"])); [reflexivity | reflexivity |].
    simpl. intros [H|[H|[H|H]]]; try discriminate H; exact H.
  - apply (proj2 (filterAfterOldCommit_range _ "c0")).
    simpl. intros [H|[H|[H|[H|[H|H]]]]]; try discriminate H; exact H.
Defined.

(** C7: dereferencing a tag never fails: it is the annotated tag object's
    target when that fetch succeeds, and the tag ref's own object id on any
    fetch failure. *)
Theorem resolveTagCommitId_fallback (remote : Remote) (repositoryId : string)
    (tagRef : GitRef) (tagName : string) (h : list Call) :
  fst (resolveTagCommitId remote repositoryId tagRef tagName h) =
    Ok (match r_tagObject remote h repositoryId (ref_objectId tagRef) with
        | Ok target => target
        | Err _ => ref_objectId tagRef
        end).
Proof.
  unfold resolveTagCommitId, getTagObject, catch, request, ret; simpl.
  destruct (r_tagObject remote h repositoryId (ref_objectId tagRef)); reflexivity.
Qed.

(** ** WorkItemResolver *)

(** ** Properties of the extraction set *)

Lemma setAdd_self (x : string) (s : list string) : In x (setAdd x s).
Proof.
  unfold setAdd. destruct (existsb (String.eqb x) s) eqn:E.
  - apply existsb_exists in E as (y & Hy & Hxy). apply String.eqb_eq in Hxy.
    subst; exact Hy.
  - apply in_or_app; right; left; reflexivity.
Qed.

Lemma setAdd_mono (x y : string) (s : list string) : In y s -> In y (setAdd x s).
Proof.
  unfold setAdd; destruct (existsb (String.eqb x) s); [tauto|].
  intros H; apply in_or_app; left; exact H.
Qed.

Lemma setAdd_NoDup (x : string) (s : list string) : NoDup s -> NoDup (setAdd x s).
Proof.
  unfold setAdd. destruct (existsb (String.eqb x) s) eqn:E; [tauto|].
  intros H. apply NoDup_app; [exact H | constructor; [tauto | constructor] |].
  intros y Hy [Hxy|[]]. subst y. assert (Hin : existsb (String.eqb x) s = true).
  { apply existsb_exists. exists x; split; [exact Hy | apply String.eqb_refl]. }
  congruence.
Qed.

Lemma setAddAll_mono (xs s : list string) (y : string) :
  In y s -> In y (setAddAll xs s).
Proof.
  revert s; induction xs as [|x xs IH]; intros s H; simpl; [exact H|].
  apply IH, setAdd_mono, H.
Qed.

Lemma setAddAll_NoDup (xs s : list string) : NoDup s -> NoDup (setAddAll xs s).
Proof.
  revert s; induction xs as [|x xs IH]; intros s H; simpl; [exact H|].
  apply IH, setAdd_NoDup, H.
Qed.

Lemma getCommitWorkItems_run (remote : Remote) (repositoryId cid : string)
    (h : list Call) :
  exists ids, getCommitWorkItems remote repositoryId cid h
              = (Ok ids, CGetCommitWorkItems repositoryId cid :: h).
Proof.
  unfold getCommitWorkItems, catch, request, ret.
  destruct (r_commitWorkItems remote h repositoryId cid); eauto.
Qed.

(** The extraction loop never fails, only queries the per-commit links, keeps
    what the set already held, adds each commit's PR-pattern digits, and
    yields a set without duplicates. *)
Lemma collectWorkItemIds_run (remote : Remote) (repositoryId : string)
    (commits : list GitCommit) (ids0 : list string) (h : list Call) :
  exists ids,
    collectWorkItemIds remote repositoryId commits ids0 h
      = (Ok ids, rev (map (fun c => CGetCommitWorkItems repositoryId (commitId c)) commits) ++ h) /\
    (forall y, In y ids0 -> In y ids) /\
    (forall c n, In c commits -> prMatch (comment c) = Some n -> In n ids) /\
    (NoDup ids0 -> NoDup ids).
Proof.
  revert ids0 h; induction commits as [|c rest IH]; intros ids0 h.
  - exists ids0. repeat split; auto. intros ? ? [].
  - simpl collectWorkItemIds. unfold bind at 1.
    destruct (getCommitWorkItems_run remote repositoryId (commitId c) h) as (got & Hgot).
    rewrite Hgot.
    set (s1 := setAddAll (map wir_id (commit_workItems c)) ids0).
    set (s2 := match prMatch (comment c) with Some n => setAdd n s1 | None => s1 end).
    set (s3 := setAddAll (wiMatches (comment c)) s2).
    destruct (IH (setAddAll got s3) (CGetCommitWorkItems repositoryId (commitId c) :: h))
      as (ids & Hrun & Hmono & Hpr & Hnd).
    assert (H12 : forall y, In y s1 -> In y s2).
    { intros y Hy; unfold s2; destruct (prMatch (comment c)); [apply setAdd_mono|]; exact Hy. }
    assert (H0s : forall y, In y ids0 -> In y ids).
    { intros y Hy. apply Hmono, setAddAll_mono, setAddAll_mono, H12, setAddAll_mono, Hy. }
    exists ids. repeat split.
    + rewrite Hrun. simpl. rewrite <- app_assoc. reflexivity.
    + exact H0s.
    + intros c' n [<-|Hc'] Hn.
      * apply Hmono, setAddAll_mono, setAddAll_mono. unfold s2; rewrite Hn.
        apply setAdd_self.
      * exact (Hpr c' n Hc' Hn).
    + intros H. apply Hnd, setAddAll_NoDup, setAddAll_NoDup.
      unfold s2; destruct (prMatch (comment c)); [apply setAdd_NoDup|];
        apply setAddAll_NoDup, H.
Qed.

(** ** ReleasePipeline: extraction *)

(** C2: a commit whose message matches [/Merged PR (\d+)/i] contributes the
    pull-request number itself to the extracted work-item set, and extraction
    sends no pull-request query ([getPullRequestWorkItems] is never called):
    its only requests are the per-commit link queries. *)
Theorem collectWorkItemIds_PR_number (remote : Remote) (repositoryId : string)
    (commits : list GitCommit) (h : list Call) :
  exists ids,
    collectWorkItemIds remote repositoryId commits [] h
      = (Ok ids, rev (map (fun c => CGetCommitWorkItems repositoryId (commitId c)) commits) ++ h) /\
    (forall c n, In c commits -> prMatch (comment c) = Some n -> In n ids).
Proof.
  destruct (collectWorkItemIds_run remote repositoryId commits [] h)
    as (ids & Hrun & _ & Hpr & _).
  exists ids; split; assumption.
Qed.

(** C2: on ["Merged PR 42: fixes AB#100 and #200"] with an explicit link to
    300, PR 42 linked to 400 and no per-commit link answer, the extracted set
    is [300; 42; 100; 200]: 42 itself is taken and 400 is missing. *)
Lemma collectWorkItemIds_PR42_counterexample :
  fst (collectWorkItemIds (demoRemote [demoCommitPR]) "repo" [demoCommitPR] [] [])
    = Ok ["300"; "42"; "100"; "200"] /\
  r_pullRequestWorkItems (demoRemote [demoCommitPR]) [] "repo" "42" = Ok ["400"] /\
  ~ In "400" ["300"; "42"; "100"; "200"].
Proof.
  split; [reflexivity | split; [reflexivity |]].
  simpl. intros H; repeat destruct H as [H|H]; try discriminate H; exact H.
Qed.

(** The run of the fetch loop. *)
Lemma fetchWorkItems_spec (remote : Remote) (ids : list string) (st : St) :
  exists answers st',
    fetchWorkItems remote ids st = (Ok (oks answers), st') /\
    length answers = length ids /\
    (forall i id a, nth_error ids i = Some id -> nth_error answers i = Some a ->
       a = r_workItem remote (rev (map CGetWorkItem (firstn i ids)) ++ history st) id) /\
    history st' = rev (map CGetWorkItem ids) ++ history st /\
    allWorkItems st' = allWorkItems st ++ oks answers /\
    processingResults st' = processingResults st.
Proof.
  revert st; induction ids as [|id rest IH]; intros st.
  - exists [], st. repeat split; try reflexivity.
    + intros [|i] ? ? H; discriminate H.
    + rewrite app_nil_r. reflexivity.
  - simpl fetchWorkItems; cbv [bind catch lift getWorkItem request pushAllWorkItems ret].
    destruct (r_workItem remote (history st) id) as [w|e] eqn:Ea; simpl.
    + destruct (IH (mkSt (CGetWorkItem id :: history st) (processingResults st)
                      (allWorkItems st ++ [w])))
        as (answers & st' & Hrun & Hlen & Hans & Hh & Hall & Hres).
      exists (Ok w :: answers), st'. rewrite Hrun. simpl in *.
      repeat split; try congruence.
      * intros [|i] id' a' H1 H2; simpl in H1, H2.
        -- injection H1 as <-; injection H2 as <-; simpl; congruence.
        -- rewrite (Hans i id' a' H1 H2); simpl firstn; simpl map; simpl rev.
           rewrite <- app_assoc; reflexivity.
      * rewrite Hh, <- app_assoc; reflexivity.
      * rewrite Hall, <- app_assoc; reflexivity.
    + destruct (IH (mkSt (CGetWorkItem id :: history st) (processingResults st)
                      (allWorkItems st)))
        as (answers & st' & Hrun & Hlen & Hans & Hh & Hall & Hres).
      exists (Err e :: answers), st'. rewrite Hrun. simpl in *.
      repeat split; try congruence.
      * intros [|i] id' a' H1 H2; simpl in H1, H2.
        -- injection H1 as <-; injection H2 as <-; simpl; congruence.
        -- rewrite (Hans i id' a' H1 H2); simpl firstn; simpl map; simpl rev.
           rewrite <- app_assoc; reflexivity.
      * rewrite Hh, <- app_assoc; reflexivity.
Qed.

(** C9: every identifier is requested, in order; a failed fetch only drops
    that identifier, and the resolved items (also pushed to [allWorkItems])
    are the successful answers, in order. *)
Theorem fetchWorkItems_skips_failures (remote : Remote) (ids : list string) (st : St) :
  exists answers st',
    fetchWorkItems remote ids st = (Ok (oks answers), st') /\
    length answers = length ids /\
    (forall i id a, nth_error ids i = Some id -> nth_error answers i = Some a ->
       a = r_workItem remote (rev (map CGetWorkItem (firstn i ids)) ++ history st) id) /\
    history st' = rev (map CGetWorkItem ids) ++ history st /\
    allWorkItems st' = allWorkItems st ++ oks answers /\
    processingResults st' = processingResults st.
Proof. apply fetchWorkItems_spec. Qed.


(** ** The history of service calls *)

Definition no_wi_call (c : Call) : bool :=
  match c with CGetWorkItem _ => false | _ => true end.

(** A service computation that only appends requests other than work-item
    fetches to the history. *)
Definition no_wi_requests {A} (m : Svc A) : Prop :=
  forall h, exists ext, snd (m h) = ext ++ h /\ forallb no_wi_call ext = true.

Lemma no_wi_ret {A} (a : A) : no_wi_requests (ret a).
Proof. intros h; exists []; split; reflexivity. Qed.

Lemma no_wi_throw {A} (e : string) : no_wi_requests (A := A) (throw e).
Proof. intros h; exists []; split; reflexivity. Qed.

Lemma no_wi_request {A} (c : Call) (answer : list Call -> outcome A) :
  no_wi_call c = true -> no_wi_requests (request c answer).
Proof. intros Hc h; exists [c]; simpl; rewrite Hc; split; reflexivity. Qed.

Lemma no_wi_bind {A B} (m : Svc A) (k : A -> Svc B) :
  no_wi_requests m -> (forall a, no_wi_requests (k a)) -> no_wi_requests (bind m k).
Proof.
  intros Hm Hk h. unfold bind. destruct (Hm h) as (e1 & H1 & F1).
  destruct (m h) as [[a|e] h1]; simpl in H1; subst h1.
  - destruct (Hk a (e1 ++ h)) as (e2 & H2 & F2). exists (e2 ++ e1).
    rewrite H2, app_assoc, forallb_app, F1, F2; split; reflexivity.
  - exists e1; split; [reflexivity | exact F1].
Qed.

Lemma no_wi_catch {A} (m : Svc A) (k : string -> Svc A) :
  no_wi_requests m -> (forall e, no_wi_requests (k e)) -> no_wi_requests (catch m k).
Proof.
  intros Hm Hk h. unfold catch. destruct (Hm h) as (e1 & H1 & F1).
  destruct (m h) as [[a|e] h1]; simpl in H1; subst h1.
  - exists e1; split; [reflexivity | exact F1].
  - destruct (Hk e (e1 ++ h)) as (e2 & H2 & F2). exists (e2 ++ e1).
    rewrite H2, app_assoc, forallb_app, F1, F2; split; reflexivity.
Qed.

Create HintDb svc.
#[local] Hint Resolve no_wi_ret no_wi_throw no_wi_bind no_wi_catch : svc.
#[local] Hint Extern 1 (no_wi_requests (request _ _)) =>
  apply no_wi_request; reflexivity : svc.

Lemma resolveTagCommitId_no_wi (remote : Remote) (repositoryId : string)
    (tagRef : GitRef) (tagName : string) :
  no_wi_requests (resolveTagCommitId remote repositoryId tagRef tagName).
Proof. unfold resolveTagCommitId, getTagObject; auto with svc. Qed.
#[local] Hint Resolve resolveTagCommitId_no_wi : svc.

Lemma getCommitsBetweenTags_no_wi (remote : Remote) (repositoryId oldTag newTag : string) :
  no_wi_requests (getCommitsBetweenTags remote repositoryId oldTag newTag).
Proof.
  unfold getCommitsBetweenTags, getRepositoryTags. apply no_wi_bind; auto with svc.
  intros tags. cbv zeta.
  destruct (find (fun t => String.eqb (ref_name t) ("refs/tags/" ++ oldTag)%string) tags),
    (find (fun t => String.eqb (ref_name t) ("refs/tags/" ++ newTag)%string) tags);
    auto with svc.
Qed.

Lemma workItemRequests_app (ext h : list Call) :
  forallb no_wi_call ext = true -> workItemRequests (ext ++ h) = workItemRequests h.
Proof.
  induction ext as [|c ext IH]; intros F; [reflexivity|].
  simpl in F; apply andb_true_iff in F as [Fc F].
  destruct c; try discriminate Fc; apply IH, F.
Qed.

Lemma workItemRequests_fetch (ids : list string) (h : list Call) :
  workItemRequests (rev (map CGetWorkItem ids) ++ h) = workItemRequests h ++ ids.
Proof.
  revert h; induction ids as [|id ids IH]; intros h; simpl.
  - rewrite app_nil_r; reflexivity.
  - rewrite <- app_assoc, IH. simpl.
    unfold workItemRequests; simpl. rewrite <- app_assoc; reflexivity.
Qed.

Lemma commit_link_calls_no_wi (repositoryId : string) (commits : list GitCommit) :
  forallb no_wi_call
    (rev (map (fun c => CGetCommitWorkItems repositoryId (commitId c)) commits)) = true.
Proof.
  apply forallb_forall. intros c Hc. apply in_rev, in_map_iff in Hc as (? & <- & _).
  reflexivity.
Qed.

(** The run of the work-item stage: the identifiers it fetches form a set,
    they are the only work-item requests it makes, and what it returns is
    what it pushes to [allWorkItems]. *)
Lemma workItemsStage_spec (remote : Remote) (repositoryId : string)
    (oldTagName : option string) (newTagName : string) (st : St) :
  exists ids answers st',
    workItemsStage remote repositoryId oldTagName newTagName st = (Ok (oks answers), st') /\
    NoDup ids /\ length answers = length ids /\
    (forall i id a, nth_error ids i = Some id -> nth_error answers i = Some a ->
       exists h, a = r_workItem remote h id) /\
    workItemRequests (history st') = workItemRequests (history st) ++ ids /\
    allWorkItems st' = allWorkItems st ++ oks answers /\
    processingResults st' = processingResults st.
Proof.
  destruct oldTagName as [oldTag|]; simpl.
  2: { exists [], [], st. split; [reflexivity|]. split; [constructor|].
       split; [reflexivity|]. split; [intros [|i] ? ? Hn; discriminate Hn|].
       repeat split; apply eq_sym, app_nil_r. }
  cbv [catch bind lift].
  destruct (getCommitsBetweenTags_no_wi remote repositoryId oldTag newTagName (history st))
    as (ext & Hext & Fext).
  destruct (getCommitsBetweenTags remote repositoryId oldTag newTagName (history st))
    as [[commits|e] h1]; simpl in Hext; subst h1.
  - destruct (collectWorkItemIds_run remote repositoryId commits [] (ext ++ history st))
      as (ids & Hc & _ & _ & Hnd).
    cbn [history processingResults allWorkItems]. rewrite Hc.
    destruct (fetchWorkItems_spec remote ids
                (mkSt (rev (map (fun c => CGetCommitWorkItems repositoryId (commitId c)) commits)
                         ++ ext ++ history st) (processingResults st) (allWorkItems st)))
      as (answers & st' & Hf & Hlen & Hans & Hh & Hall & Hres).
    rewrite Hf. exists ids, answers, st'. simpl in *.
    split; [reflexivity|]. split; [apply Hnd; constructor|].
    split; [exact Hlen|]. split; [intros i id a H1 H2; eexists; exact (Hans i id a H1 H2)|].
    repeat split; try assumption.
    + rewrite Hh, workItemRequests_fetch, workItemRequests_app, workItemRequests_app;
        [reflexivity | exact Fext | apply commit_link_calls_no_wi].
  - exists [], [], (mkSt (ext ++ history st) (processingResults st) (allWorkItems st)).
    simpl. split; [reflexivity|]. split; [constructor|].
    split; [reflexivity|]. split; [intros [|i] ? ? Hn; discriminate Hn|].
    repeat split.
    + rewrite app_nil_r. apply workItemRequests_app, Fext.
    + apply eq_sym, app_nil_r.
Qed.

(** C10 (as amended): within one repository the extracted identifiers form a
    set of strings: each identifier string is fetched at most once, and the
    recorded work-item list has one entry per identifier string whose fetch
    succeeded. *)
Theorem workItemsStage_fetch_once (remote : Remote) (repositoryId : string)
    (oldTagName : option string) (newTagName : string) (st : St) :
  exists ids answers st',
    workItemsStage remote repositoryId oldTagName newTagName st = (Ok (oks answers), st') /\
    NoDup ids /\ length answers = length ids /\
    (forall i id a, nth_error ids i = Some id -> nth_error answers i = Some a ->
       exists h, a = r_workItem remote h id) /\
    workItemRequests (history st') = workItemRequests (history st) ++ ids.
Proof.
  destruct (workItemsStage_spec remote repositoryId oldTagName newTagName st)
    as (ids & answers & st' & H1 & H2 & H3 & H4 & H5 & _).
  exists ids, answers, st'.
  split; [exact H1 | split; [exact H2 | split; [exact H3 | split; [exact H4 | exact H5]]]].
Qed.

(** C10: a commit referencing [#042] and linked to work item 42 makes the
    repository's recorded list hold work item 42 twice (fetched as "42" and
    as "042"). *)
Lemma processReleases_042_counterexample :
  map (fun r => option_map (map wi_id) (pr_workItems r))
      (fst (fst (processReleases (demoRemote [demoCommit042; demoCommitOld])
                                 [demoRepo "A" "1.0"] [])))
    = [Some [42%N; 42%N]].
Proof. vm_compute. reflexivity. Qed.

(** ** ReleasePipeline: one repository, then the batch *)

Lemma processRepo_spec (remote : Remote) (repo : Repository) (st : St) :
  let v := calculateNewVersion (currentVersion repo) (bumpOf repo) in
  exists pr st',
    processRepo remote repo st = (Ok tt, st') /\
    processingResults st' = processingResults st ++ [pr] /\
    allWorkItems st' = allWorkItems st ++ resultItems pr /\
    pr_repository pr = repo_name repo /\
    match fst (createReleaseRefs remote repo v (history st)) with
    | Err e => pr = mkResult (repo_name repo) false None (Some e) None
    | Ok _ => pr_success pr = true /\ pr_newVersion pr = Some v /\
              pr_error pr = None /\ exists items, pr_workItems pr = Some items
    end.
Proof.
  intros v. unfold processRepo. fold v. cbv [catch bind lift].
  destruct (createReleaseRefs remote repo v (history st)) as [[u|e] h1]; simpl.
  - destruct (workItemsStage_spec remote (repo_id repo) (oldTagNameOf repo) v
                (mkSt h1 (processingResults st) (allWorkItems st)))
      as (ids & answers & st2 & Hw & _ & _ & _ & _ & Hall & Hres).
    rewrite Hw. simpl in *.
    eexists; eexists; split; [reflexivity|]. simpl.
    rewrite Hres, Hall. repeat split; eauto. exists (oks answers); reflexivity.
  - eexists; eexists; split; [reflexivity|]. simpl.
    repeat split; apply eq_sym, app_nil_r.
Qed.

Lemma processRepos_spec (remote : Remote) (repos : list Repository) (st : St) :
  exists rs st',
    processRepos remote repos st = (Ok tt, st') /\
    processingResults st' = processingResults st ++ rs /\
    allWorkItems st' = allWorkItems st ++ concat (map resultItems rs) /\
    length rs = length repos /\
    forall i repo pr, nth_error repos i = Some repo -> nth_error rs i = Some pr ->
      let sti := snd (processRepos remote (firstn i repos) st) in
      let v := calculateNewVersion (currentVersion repo) (bumpOf repo) in
      pr_repository pr = repo_name repo /\
      match fst (createReleaseRefs remote repo v (history sti)) with
      | Err e => pr = mkResult (repo_name repo) false None (Some e) None
      | Ok _ => pr_success pr = true /\ pr_newVersion pr = Some v
      end.
Proof.
  revert st; induction repos as [|repo rest IH]; intros st.
  - exists [], st. repeat split; try (apply eq_sym, app_nil_r).
    all: destruct i; discriminate H.
  - destruct (processRepo_spec remote repo st) as (pr & st1 & H1 & Hr1 & Ha1 & Hn1 & Hc1).
    destruct (IH st1) as (rs & st' & H2 & Hr2 & Ha2 & Hl2 & Hi2).
    exists (pr :: rs), st'. simpl processRepos. unfold bind at 1. rewrite H1, H2.
    split; [reflexivity|]. split; [|split; [|split]].
    + rewrite Hr2, Hr1, <- app_assoc; reflexivity.
    + rewrite Ha2, Ha1, <- app_assoc; reflexivity.
    + simpl; congruence.
    + intros [|i] repo' pr' Hrepo Hpr; simpl in Hrepo, Hpr.
      * injection Hrepo as <-; injection Hpr as <-. split; [exact Hn1|].
        simpl. destruct (fst _); [tauto|exact Hc1].
      * simpl firstn. simpl processRepos. unfold bind at 1. rewrite H1.
        exact (Hi2 i repo' pr' Hrepo Hpr).
Qed.

(** C5: over a batch, every repository gets exactly one result, in input
    order, named after it; the result is a failure carrying the error
    message exactly when creating its release refs (main commit, branch,
    tag) fails, and a success with the new version otherwise; the batch
    always runs to its end. *)
Theorem processRepos_fault_isolation (remote : Remote) (repos : list Repository) :
  exists rs st',
    processRepos remote repos (mkSt [] [] []) = (Ok tt, st') /\
    processingResults st' = rs /\
    length rs = length repos /\
    forall i repo pr, nth_error repos i = Some repo -> nth_error rs i = Some pr ->
      let sti := snd (processRepos remote (firstn i repos) (mkSt [] [] [])) in
      let v := calculateNewVersion (currentVersion repo) (bumpOf repo) in
      pr_repository pr = repo_name repo /\
      match fst (createReleaseRefs remote repo v (history sti)) with
      | Err e => pr = mkResult (repo_name repo) false None (Some e) None
      | Ok _ => pr_success pr = true /\ pr_newVersion pr = Some v
      end.
Proof.
  destruct (processRepos_spec remote repos (mkSt [] [] []))
    as (rs & st' & H1 & H2 & _ & H4 & H5).
  exists rs, st'. split; [exact H1 | split; [exact H2 | split; [exact H4 | exact H5]]].
Qed.

(** Three repositories, the second failing at tag creation: three results,
    the second a failure with the server's message, the others successes. *)
Lemma processRepos_fault_isolation_witness :
  exists rs,
    length rs = 3 /\
    (exists pr, nth_error rs 1 = Some pr /\
                pr = mkResult "B" false None
                       (Some "API Error: 409 - tag already exists") None) /\
    (exists pr, nth_error rs 0 = Some pr /\ pr_success pr = true /\
                pr_newVersion pr = Some "1.1") /\
    (exists pr, nth_error rs 2 = Some pr /\ pr_success pr = true /\
                pr_newVersion pr = Some "0.1").
Proof.
  destruct (processRepos_fault_isolation tagFailRemote demoBatch)
    as (rs & st' & Hrun & Hrs & Hlen & Hi).
  assert (Hv : rs = processingResults (snd (processRepos tagFailRemote demoBatch
                                              (mkSt [] [] [])))).
  { rewrite Hrun; simpl; symmetry; exact Hrs. }
  vm_compute in Hv. exists rs. split; [exact Hlen|].
  split; [| split].
  - eexists; split; [exact (f_equal (fun l => nth_error l 1) Hv)|].
    exact (proj2 (Hi 1 (demoRepo "B" "1.0") _ eq_refl (f_equal (fun l => nth_error l 1) Hv))).
  - eexists; split; [exact (f_equal (fun l => nth_error l 0) Hv)|].
    exact (proj2 (Hi 0 (demoRepo "A" "1.0") _ eq_refl (f_equal (fun l => nth_error l 0) Hv))).
  - eexists; split; [exact (f_equal (fun l => nth_error l 2) Hv)|].
    exact (proj2 (Hi 2 (demoRepo "C" "No releases") _ eq_refl
                     (f_equal (fun l => nth_error l 2) Hv))).
Defined.

(** ** Consolidation *)

Lemma map_set_keys (k : N) (v : WorkItem) (m : list (N * WorkItem)) :
  map fst (map_set k v m)
    = if existsb (N.eqb k) (map fst m) then map fst m else map fst m ++ [k].
Proof.
  induction m as [|[k' v'] m IH]; simpl; [reflexivity|].
  destruct (N.eqb k k') eqn:E; simpl; [reflexivity|].
  rewrite IH. destruct (existsb (N.eqb k) (map fst m)); reflexivity.
Qed.

Lemma map_set_In (k : N) (v : WorkItem) (m : list (N * WorkItem)) (k' : N) (v' : WorkItem) :
  NoDup (map fst m) -> In (k', v') (map_set k v m) ->
  (k' = k /\ v' = v) \/ (k' <> k /\ In (k', v') m).
Proof.
  induction m as [|[k0 v0] m IH]; simpl; intros Hnd Hin.
  - destruct Hin as [[=<- <-]|[]]. left; split; reflexivity.
  - inversion Hnd as [|? ? Hnot Hnd']; subst.
    destruct (N.eqb k k0) eqn:E.
    + apply N.eqb_eq in E; subst k0. destruct Hin as [[=<- <-]|Hin].
      * left; split; reflexivity.
      * right; split; [|right; exact Hin].
        intros Heq. apply Hnot. rewrite <- Heq. exact (in_map fst _ _ Hin).
    + destruct Hin as [[=<- <-]|Hin].
      * right; split; [apply N.eqb_neq; rewrite N.eqb_sym; exact E | left; reflexivity].
      * destruct (IH Hnd' Hin) as [H|[H1 H2]]; [left; exact H | right; split; [exact H1 | right; exact H2]].
Qed.

Lemma existsb_N_false (k : N) (l : list N) : existsb (N.eqb k) l = false -> ~ In k l.
Proof.
  intros E Hin. assert (H : existsb (N.eqb k) l = true).
  { apply existsb_exists; exists k; split; [exact Hin | apply N.eqb_refl]. }
  congruence.
Qed.

Lemma uniqueWorkItems_fold (l : list WorkItem) :
  let m := fold_left (fun m item => map_set (wi_id item) item m) l [] in
  NoDup (map fst m) /\ map fst m = keys_first (map wi_id l) /\
  (forall k v, In (k, v) m -> wi_id v = k /\ last_with_id l k = Some v).
Proof.
  induction l as [|x l IH] using rev_ind; simpl.
  - split; [constructor | split; [reflexivity | intros ? ? []]].
  - rewrite fold_left_app. simpl.
    set (m := fold_left (fun m item => map_set (wi_id item) item m) l []) in *.
    destruct IH as (Hnd & Hkeys & Hent).
    unfold keys_first, last_with_id. rewrite map_app, !fold_left_app. simpl.
    fold (keys_first (map wi_id l)). rewrite <- Hkeys.
    split; [|split].
    + rewrite map_set_keys. destruct (existsb (N.eqb (wi_id x)) (map fst m)) eqn:E;
        [exact Hnd|].
      apply NoDup_app; [exact Hnd | constructor; [tauto | constructor] |].
      intros a Ha [<-|[]]. exact (existsb_N_false _ _ E Ha).
    + rewrite map_set_keys. reflexivity.
    + intros k v Hin. rewrite fold_left_app. simpl.
      destruct (map_set_In _ _ _ _ _ Hnd Hin) as [[-> ->]|[Hne Hin']].
      * rewrite N.eqb_refl. split; reflexivity.
      * destruct (Hent k v Hin') as [Hid Hlast]. split; [exact Hid|].
        fold (last_with_id l k). rewrite Hlast.
        apply N.eqb_neq in Hne. rewrite N.eqb_sym, Hne. reflexivity.
Qed.

(** [new Map(...).values()] keeps one record per identifier, identifiers in
    order of first appearance, each the last record seen for it. *)
Lemma uniqueWorkItems_spec (l : list WorkItem) :
  map wi_id (uniqueWorkItems l) = keys_first (map wi_id l) /\
  NoDup (map wi_id (uniqueWorkItems l)) /\
  (forall w, In w (uniqueWorkItems l) -> last_with_id l (wi_id w) = Some w).
Proof.
  destruct (uniqueWorkItems_fold l) as (Hnd & Hkeys & Hent).
  unfold uniqueWorkItems.
  set (m := fold_left (fun m item => map_set (wi_id item) item m) l []) in *.
  assert (Hids : map wi_id (map snd m) = map fst m).
  { rewrite map_map. apply map_ext_in. intros [k v] Hkv. exact (proj1 (Hent k v Hkv)). }
  rewrite Hids. split; [exact Hkeys | split; [exact Hnd|]].
  intros w Hw. apply in_map_iff in Hw as ([k v] & <- & Hkv). simpl.
  destruct (Hent k v Hkv) as [-> H]; exact H.
Qed.

(** C1 (as amended): the consolidated list is the union of the successful
    repositories' resolved work items, one entry per identifier, in order of
    first appearance; the entry kept for an identifier is the last record
    seen for it in processing order (a JavaScript [Map] overwrites). *)
Theorem processReleases_consolidated (remote : Remote) (repositories : list Repository)
    (h : list Call) :
  let r := processReleases remote repositories h in
  let resolved := concat (map resultItems (fst (fst r))) in
  snd (fst r) = uniqueWorkItems resolved /\
  map wi_id (snd (fst r)) = keys_first (map wi_id resolved) /\
  NoDup (map wi_id (snd (fst r))) /\
  (forall w, In w (snd (fst r)) -> last_with_id resolved (wi_id w) = Some w).
Proof.
  unfold processReleases. cbv zeta.
  destruct (processRepos_spec remote (filter selected repositories) (mkSt h [] []))
    as (rs & st' & Hrun & Hres & Hall & _).
  rewrite Hrun. simpl. rewrite Hres, Hall. simpl.
  split; [reflexivity | apply uniqueWorkItems_spec].
Qed.

(** C1: two repositories resolving work item 100, edited between the two
    fetches: the consolidated entry for 100 is the second repository's
    record, not the first-seen one. *)
Lemma processReleases_first_seen_counterexample :
  let r := processReleases (demoRemote [demoCommitPR; demoCommitOld])
             [demoRepo "A" "1.0"; demoRepo "B" "1.0"] [] in
  In (demoWorkItem 100 "original") (resultItems (nth 0 (fst (fst r)) (mkResult "" false None None None))) /\
  In (demoWorkItem 100 "edited") (resultItems (nth 1 (fst (fst r)) (mkResult "" false None None None))) /\
  filter (fun w => N.eqb (wi_id w) 100) (snd (fst r)) = [demoWorkItem 100 "edited"].
Proof. vm_compute. split; [|split]; [right; right; left | right; right; left | ]; reflexivity. Qed.

(** ** Latest release version *)

Ltac nbool :=
  repeat match goal with
  | |- context [(?a <? ?b)%N] => destruct (N.ltb_spec a b)
  | |- context [(?a =? ?b)%N] => destruct (N.eqb_spec a b)
  | |- context [(?a <=? ?b)%N] => destruct (N.leb_spec a b)
  | |- context [(?a =? ?b)%Z] => destruct (Z.eqb_spec a b)
  | |- context [(?a <? ?b)%Z] => destruct (Z.ltb_spec a b)
  end; simpl; try reflexivity; try discriminate; try lia.

Lemma before_parsed (x y : string) (a1 b1 a2 b2 : N) :
  version_key x = (Num a1, Num b1) -> version_key y = (Num a2, Num b2) ->
  before x y = ((a2 <? a1) || ((a2 =? a1) && (b2 <? b1)))%N.
Proof.
  intros Hx Hy. unfold before, compareVersions. rewrite Hx, Hy. simpl. nbool.
Qed.

Lemma version_leb_parsed (x y : string) (a1 b1 a2 b2 : N) :
  version_key x = (Num a1, Num b1) -> version_key y = (Num a2, Num b2) ->
  version_leb x y = ((a1 <? a2) || ((a1 =? a2) && (b1 <=? b2)))%N.
Proof. intros Hx Hy. unfold version_leb. rewrite Hx, Hy. reflexivity. Qed.

Lemma version_leb_refl (x : string) : parsed x -> version_leb x x = true.
Proof. intros (a & b & Hx). rewrite (version_leb_parsed _ _ _ _ _ _ Hx Hx). nbool. Qed.

Lemma version_leb_trans (x y z : string) :
  version_leb x y = true -> version_leb y z = true -> version_leb x z = true.
Proof.
  unfold version_leb.
  destruct (version_key x) as [[a1|] [b1|]], (version_key y) as [[a2|] [b2|]],
    (version_key z) as [[a3|] [b3|]]; try discriminate.
  nbool.
Qed.

Lemma version_leb_before (x y : string) :
  parsed x -> parsed y ->
  (before x y = true -> version_leb y x = true) /\
  (before x y = false -> version_leb x y = true).
Proof.
  intros (a1 & b1 & Hx) (a2 & b2 & Hy).
  rewrite (before_parsed _ _ _ _ _ _ Hx Hy), (version_leb_parsed _ _ _ _ _ _ Hx Hy),
    (version_leb_parsed _ _ _ _ _ _ Hy Hx).
  split; nbool.
Qed.

Lemma hd_insert_sorted (x : string) (acc : list string) :
  hd_error (insert_sorted x acc)
    = match hd_error acc with None => Some x | Some y => if before x y then Some x else Some y end.
Proof. destruct acc as [|y acc]; simpl; [reflexivity|]. destruct (before x y); reflexivity. Qed.

Lemma insert_sorted_nonnil (x : string) (acc : list string) : insert_sorted x acc <> [].
Proof. destruct acc as [|y acc]; simpl; [|destruct (before x y)]; discriminate. Qed.

(** The head of the sorted list is a member, maximal in the Version order. *)
Lemma sort_head_max (l : list string) :
  Forall parsed l ->
  match hd_error (sort l) with
  | None => l = []
  | Some m => In m l /\ forall y, In y l -> version_leb y m = true
  end.
Proof.
  induction l as [|x l IH] using rev_ind; intros Hp; [reflexivity|].
  apply Forall_app in Hp as [Hp Hx]. inversion Hx as [|? ? Hxp _]; subst.
  specialize (IH Hp).
  unfold sort in *. rewrite fold_left_app. simpl. rewrite hd_insert_sorted.
  destruct (hd_error (fold_left (fun acc x => insert_sorted x acc) l [])) as [m|] eqn:Hm.
  - destruct IH as [Hin Hmax].
    assert (Hmp : parsed m) by (rewrite Forall_forall in Hp; exact (Hp m Hin)).
    destruct (version_leb_before x m Hxp Hmp) as [Hb Hnb].
    destruct (before x m) eqn:E.
    + split; [apply in_or_app; right; left; reflexivity|].
      intros y Hy. apply in_app_or in Hy as [Hy|[<-|[]]].
      * exact (version_leb_trans _ _ _ (Hmax y Hy) (Hb eq_refl)).
      * exact (version_leb_refl _ Hxp).
    + split; [apply in_or_app; left; exact Hin|].
      intros y Hy. apply in_app_or in Hy as [Hy|[<-|[]]].
      * exact (Hmax y Hy).
      * exact (Hnb eq_refl).
  - subst l. simpl. split; [left; reflexivity|].
    intros y [<-|[]]. exact (version_leb_refl _ Hxp).
Qed.

Lemma digit_not_dot (c : ascii) : is_digit c = true -> Ascii.eqb c "." = false.
Proof.
  intros H. destruct (Ascii.eqb_spec c ".") as [->|]; [discriminate H | reflexivity].
Qed.

Lemma span_digits_all (s d r : string) : span_digits s = (d, r) -> all_digits d = true.
Proof.
  revert d r. induction s as [|c s IH]; simpl; intros d r E.
  - injection E as <- _. reflexivity.
  - destruct (is_digit c) eqn:Hc.
    + destruct (span_digits s) as [d' r'] eqn:E'. injection E as <- _.
      simpl. rewrite Hc. exact (IH _ _ eq_refl).
    + injection E as <- _. reflexivity.
Qed.

Lemma splitOn_digits (d t r : string) (rs : list string) :
  all_digits d = true -> splitOn "." t = r :: rs ->
  splitOn "." (d ++ t)%string = (d ++ r)%string :: rs.
Proof.
  induction d as [|c d IH]; simpl; intros Hd Ht; [exact Ht|].
  apply andb_prop in Hd as [Hc Hd].
  rewrite (IH Hd Ht), (digit_not_dot c Hc). reflexivity.
Qed.

Lemma digits_val_all (d : string) (acc : N) :
  all_digits d = true -> exists n, digits_val d acc = Some n.
Proof.
  revert acc. induction d as [|c d IH]; simpl; intros acc Hd; [exists acc; reflexivity|].
  apply andb_prop in Hd as [Hc Hd]. rewrite Hc. exact (IH _ Hd).
Qed.

Lemma release_at_shape (s x : string) :
  release_at s = Some x ->
  exists d1 d2, x = (d1 ++ "." ++ d2)%string /\ all_digits d1 = true /\ all_digits d2 = true.
Proof.
  unfold release_at. destruct (strip_prefix "refs/heads/release/" s) as [r|]; [|discriminate].
  destruct (span_digits r) as [d1 r1] eqn:E1.
  destruct d1 as [|c1 d1']; [discriminate|].
  destruct r1 as [|c r2]; [discriminate|].
  destruct (Ascii.eqb c "."); [|discriminate].
  destruct (span_digits r2) as [d2 r3] eqn:E2.
  destruct d2 as [|c2 d2']; [discriminate|].
  destruct (strip_prefix ".x" r3); [|discriminate].
  intros [= <-]. exists (String c1 d1'), (String c2 d2').
  split; [reflexivity|split; [exact (span_digits_all _ _ _ E1) | exact (span_digits_all _ _ _ E2)]].
Qed.

Lemma search_first_some {A} (f : string -> option A) (s : string) (a : A) :
  search_first f s = Some a -> exists s', f s' = Some a.
Proof.
  induction s as [|c s IH]; simpl; destruct (f _) eqn:E; intros H.
  - exists ""; congruence.
  - discriminate.
  - exists (String c s); congruence.
  - exact (IH H).
Qed.

Lemma release_capture_parsed (name x : string) : release_capture name = Some x -> parsed x.
Proof.
  intros H. destruct (search_first_some _ _ _ H) as [s' Hs].
  destruct (release_at_shape _ _ Hs) as (d1 & d2 & -> & H1 & H2).
  unfold parsed, version_key. change ("." ++ d2)%string with (String "." d2).
  rewrite (splitOn_digits d1 (String "." d2) "" [d2]); simpl.
  - destruct (digits_val_all d1 0 H1) as [n1 E1], (digits_val_all d2 0 H2) as [n2 E2].
    rewrite append_empty. unfold Number.
    rewrite (js_trim_digits d1 H1), (js_trim_digits d2 H2), E1, E2.
    exists n1, n2. reflexivity.
  - exact H1.
  - pose proof (splitOn_digits d2 "" "" [] H2 eq_refl) as E.
    rewrite !append_empty in E. rewrite E. reflexivity.
Qed.

Lemma somes_In {A} (l : list (option A)) (x : A) : In x (somes l) <-> In (Some x) l.
Proof.
  induction l as [|[a|] l IH]; simpl; [tauto| |].
  - rewrite IH. split; intros [H|H]; (left; congruence) || (right; exact H).
  - rewrite IH. split; [intros H; right; exact H | intros [H|H]; [discriminate|exact H]].
Qed.

Lemma releaseBranches_In (refs : list GitRef) (x : string) :
  In x (releaseBranches refs) <->
  exists ref, In ref refs /\ is_release_ref ref = true /\ release_capture (ref_name ref) = Some x.
Proof.
  unfold releaseBranches. rewrite somes_In, in_map_iff. split.
  - intros (ref & Hc & Hin). apply filter_In in Hin as [Hin Hr].
    exists ref; split; [exact Hin | split; [exact Hr | exact Hc]].
  - intros (ref & Hin & Hr & Hc). exists ref; split; [exact Hc | apply filter_In; split; assumption].
Qed.

Lemma getLatestReleaseVersion_run (remote : Remote) (repositoryId : string) (h : list Call)
    (refs : list GitRef) :
  r_refs remote h repositoryId = Ok refs ->
  fst (getLatestReleaseVersion remote repositoryId h)
    = match releaseBranches refs with [] => Ok None | rb => Ok (hd_error (sort rb)) end.
Proof.
  intros Hr. unfold getLatestReleaseVersion, catch, bind, getRepositoryRefs, request.
  rewrite Hr. destruct (releaseBranches refs); reflexivity.
Qed.

(** C8: with the ref listing [refs], the latest release version is [None]
    exactly when no ref is a release branch whose name matches the pattern;
    otherwise it is one of the matched versions, maximal in the Version
    order, provided every candidate's components are at most [max_safe]
    (beyond it JavaScript compares rounded doubles).  The candidates are
    exactly the versions captured from matching ref names, each of which
    parses as two numbers; other refs are dropped, and the call never
    fails. *)
Theorem getLatestReleaseVersion_max (remote : Remote) (repositoryId : string)
    (h : list Call) (refs : list GitRef) :
  r_refs remote h repositoryId = Ok refs ->
  (forall x, In x (releaseBranches refs) <->
     exists ref, In ref refs /\ is_release_ref ref = true /\
                 release_capture (ref_name ref) = Some x) /\
  (forall x, In x (releaseBranches refs) -> parsed x) /\
  (releaseBranches refs = [] -> fst (getLatestReleaseVersion remote repositoryId h) = Ok None) /\
  ((forall x, In x (releaseBranches refs) -> safe_version x = true) ->
   releaseBranches refs <> [] ->
     exists v, fst (getLatestReleaseVersion remote repositoryId h) = Ok (Some v) /\
       In v (releaseBranches refs) /\
       forall y, In y (releaseBranches refs) -> version_leb y v = true).
Proof.
  intros Hr.
  assert (Hp : forall x, In x (releaseBranches refs) -> parsed x).
  { intros x Hx. apply releaseBranches_In in Hx as (ref & _ & _ & Hc).
    exact (release_capture_parsed _ _ Hc). }
  rewrite (getLatestReleaseVersion_run _ _ _ _ Hr).
  split; [apply releaseBranches_In|split; [exact Hp|split]].
  - intros ->. reflexivity.
  - intros _ Hne.
    pose proof (sort_head_max (releaseBranches refs) (proj2 (Forall_forall _ _) Hp)) as Hmax.
    destruct (hd_error (sort (releaseBranches refs))) as [m|] eqn:E; [|contradiction].
    exists m. destruct (releaseBranches refs) as [|b bs]; [contradiction|].
    split; [rewrite E; reflexivity | exact Hmax].
Qed.

(** Release branches 1.2, 1.10 and 2 (malformed) and foo (malformed): the
    result is 1.10, compared numerically. *)
Lemma getLatestReleaseVersion_max_witness :
  r_refs (refsRemote demoRefs) [] "A" = Ok demoRefs /\
  releaseBranches demoRefs <> [] /\
  fst (getLatestReleaseVersion (refsRemote demoRefs) "A" []) = Ok (Some "1.10") /\
  (forall x, In x (releaseBranches demoRefs) -> safe_version x = true) /\
  (exists v, fst (getLatestReleaseVersion (refsRemote demoRefs) "A" []) = Ok (Some v) /\
     In v (releaseBranches demoRefs) /\
     forall y, In y (releaseBranches demoRefs) -> version_leb y v = true).
Proof.
  assert (Hsafe : forall x, In x (releaseBranches demoRefs) -> safe_version x = true).
  { intros x Hx. vm_compute in Hx.
    repeat destruct Hx as [Hx|Hx]; try contradiction; subst x; vm_compute; reflexivity. }
  split; [reflexivity|split; [vm_compute; discriminate|split; [vm_compute; reflexivity|]]].
  split; [exact Hsafe|].
  apply (getLatestReleaseVersion_max (refsRemote demoRefs) "A" [] demoRefs eq_refl);
    [exact Hsafe|].
  vm_compute. discriminate.
Defined.

(** ** Retries *)

Lemma retry_from_S {A} (fn : nat -> outcome A) (m : nat) (d b : N) (r a : nat)
    (last : option string) :
  retry_from fn m d b (S r) a last
    = match fn a with
      | Ok v => (Ok v, [RCall a])
      | Err e =>
          let waits := if Nat.ltb a m then [RSleep (d * b ^ N.of_nat (a - 1))] else [] in
          let (res, evs) := retry_from fn m d b r (S a) (Some e) in
          (res, RCall a :: waits ++ evs)
      end.
Proof. reflexivity. Qed.

Lemma retry_from_success {A} (fn : nat -> outcome A) (maxAttempts : nat) (d b : N) (v : A) :
  forall k a last,
    1 <= a -> a + k <= maxAttempts ->
    (forall i, i < k -> exists e, fn (a + i) = Err e) -> fn (a + k) = Ok v ->
    retry_from fn maxAttempts d b (maxAttempts + 1 - a) a last
      = (Ok v, schedule_from d b a k ++ [RCall (a + k)])%list.
Proof.
  induction k as [|k IH]; intros a last Ha Hk Hf Hv.
  - replace (maxAttempts + 1 - a) with (S (maxAttempts - a)) by lia.
    rewrite Nat.add_0_r in Hv |- *. simpl. rewrite Hv. reflexivity.
  - replace (maxAttempts + 1 - a) with (S (maxAttempts + 1 - S a)) by lia.
    destruct (Hf 0 ltac:(lia)) as [e He]. rewrite Nat.add_0_r in He.
    rewrite retry_from_S, He.
    assert (Hlt : Nat.ltb a maxAttempts = true) by (apply Nat.ltb_lt; lia). rewrite Hlt.
    rewrite (IH (S a) (Some e)); [| lia | lia | |].
    + replace (S a + k) with (a + S k) by lia. reflexivity.
    + intros i Hi. replace (S a + i) with (a + S i) by lia. apply Hf; lia.
    + replace (S a + k) with (a + S k) by lia. exact Hv.
Qed.

Lemma retry_from_failure {A} (fn : nat -> outcome A) (maxAttempts : nat) (d b : N)
    (err : nat -> string) :
  forall k a last,
    1 <= a -> a + k = maxAttempts ->
    (forall i, i <= k -> fn (a + i) = Err (err (a + i))) ->
    retry_from fn maxAttempts d b (S k) a last
      = (Err (err (a + k)), schedule_from d b a k ++ [RCall (a + k)])%list.
Proof.
  induction k as [|k IH]; intros a last Ha Hk Hf.
  - rewrite Nat.add_0_r in Hk |- *. pose proof (Hf 0 ltac:(lia)) as He.
    rewrite Nat.add_0_r in He. simpl. rewrite He.
    assert (Hlt : Nat.ltb a maxAttempts = false) by (apply Nat.ltb_ge; lia). rewrite Hlt.
    reflexivity.
  - pose proof (Hf 0 ltac:(lia)) as He. rewrite Nat.add_0_r in He.
    rewrite retry_from_S, He.
    assert (Hlt : Nat.ltb a maxAttempts = true) by (apply Nat.ltb_lt; lia). rewrite Hlt.
    rewrite (IH (S a) (Some (err a))); [| lia | lia |].
    + replace (S a + k) with (a + S k) by lia. reflexivity.
    + intros i Hi. replace (S a + i) with (a + S i) by lia. apply Hf; lia.
Qed.

(** [retryAsync]: when the [k]-th invocation ([1 <= k <= maxAttempts]) is
    the first to succeed, its value is returned after exactly [k]
    invocations, the [i]-th failure being followed by a wait of
    [delayMs * backoffMultiplier^(i-1)] ms. *)
Theorem retryAsync_first_success {A} (fn : nat -> outcome A) (maxAttempts : nat)
    (delayMs backoffMultiplier : N) (k : nat) (v : A) :
  1 <= k -> k <= maxAttempts ->
  (forall i, 1 <= i < k -> exists e, fn i = Err e) -> fn k = Ok v ->
  retryAsync fn maxAttempts delayMs backoffMultiplier
    = (Ok v, schedule_from delayMs backoffMultiplier 1 (k - 1) ++ [RCall k])%list.
Proof.
  intros Hk Hmax Hf Hv. unfold retryAsync.
  replace maxAttempts with (maxAttempts + 1 - 1) at 2 by lia.
  rewrite (retry_from_success fn maxAttempts delayMs backoffMultiplier v (k - 1) 1 None);
    [| lia | lia | |].
  - replace (1 + (k - 1)) with k by lia. reflexivity.
  - intros i Hi. apply Hf. lia.
  - replace (1 + (k - 1)) with k by lia. exact Hv.
Qed.

(** [retryAsync]: when every invocation fails, [fn] is invoked exactly
    [maxAttempts] times, with a back-off wait after each failure but the
    last, and the last error is thrown; with [maxAttempts = 0], [fn] is never
    invoked and "Max retry attempts reached" is thrown. *)
Theorem retryAsync_all_fail {A} (fn : nat -> outcome A) (maxAttempts : nat)
    (delayMs backoffMultiplier : N) (err : nat -> string) :
  (forall i, 1 <= i <= maxAttempts -> fn i = Err (err i)) ->
  retryAsync fn maxAttempts delayMs backoffMultiplier
    = match maxAttempts with
      | O => (Err "Max retry attempts reached", [])
      | S k => (Err (err maxAttempts),
                schedule_from delayMs backoffMultiplier 1 k ++ [RCall maxAttempts])%list
      end.
Proof.
  intros Hf. unfold retryAsync. destruct maxAttempts as [|k]; [reflexivity|].
  rewrite (retry_from_failure fn (S k) delayMs backoffMultiplier err k 1 None);
    [| lia | lia |].
  - replace (1 + k) with (S k) by lia. reflexivity.
  - intros i Hi. apply Hf. lia.
Qed.

(** A call failing twice then succeeding, with the defaults. *)
Lemma retryAsync_first_success_witness :
  1 <= 3 /\ 3 <= 3 /\
  retryAsync_default (fun i => if Nat.eqb i 3 then Ok tt else Err "API Error: 503 - busy")
    = (Ok tt, [RCall 1; RSleep 1000; RCall 2; RSleep 2000; RCall 3]).
Proof.
  split; [lia|split; [lia|]]. unfold retryAsync_default.
  rewrite (retryAsync_first_success _ 3 1000 2 3 tt); [reflexivity | lia | lia | |reflexivity].
  intros i Hi. destruct i as [|[|[|i]]]; try lia; eexists; reflexivity.
Defined.

(** A call that always fails, with the defaults: three invocations, waits of
    1000 ms and 2000 ms, and the third error. *)
Lemma retryAsync_all_fail_witness :
  retryAsync_default (fun i : nat => @Err unit ("attempt " ++ showN (N.of_nat i))%string)
    = (Err "attempt 3", [RCall 1; RSleep 1000; RCall 2; RSleep 2000; RCall 3]).
Proof.
  unfold retryAsync_default.
  rewrite (retryAsync_all_fail (fun i : nat => @Err unit ("attempt " ++ showN (N.of_nat i))%string) 3 1000 2
             (fun i => ("attempt " ++ showN (N.of_nat i))%string)).
  - reflexivity.
  - intros i _. reflexivity.
Defined.

(** ** HTML stripping *)

Definition len_inside (st : option string) : nat :=
  match st with None => 0 | Some buf => String.length buf end.

Lemma length_append_str (a b : string) : String.length (a ++ b) = String.length a + String.length b.
Proof. induction a; simpl; congruence. Qed.

Lemma str_append_assoc (a b c : string) : (a ++ (b ++ c))%string = ((a ++ b) ++ c)%string.
Proof. induction a; simpl; congruence. Qed.

Lemma strip_tags_go_no_gt (s buf : string) :
  contains_gt s = false -> strip_tags_go (Some buf) s = (buf ++ s)%string.
Proof.
  revert buf. induction s as [|c s IH]; intros buf H; simpl in *.
  - rewrite append_empty. reflexivity.
  - apply orb_false_iff in H as [Hc Hs]. rewrite Hc, (IH _ Hs).
    rewrite <- str_append_assoc. reflexivity.
Qed.

Lemma replace_tags_no_tag (s : string) : has_tag s = false -> replace_tags s = s.
Proof.
  unfold replace_tags. induction s as [|c s IH]; simpl; intros H; [reflexivity|].
  apply orb_false_iff in H as [Hc Hs].
  destruct (Ascii.eqb c "<") eqn:E.
  - simpl in Hc. rewrite (strip_tags_go_no_gt _ _ Hc).
    apply Ascii.eqb_eq in E. subst c. reflexivity.
  - rewrite (IH Hs). reflexivity.
Qed.

Lemma strip_tags_go_length (st : option string) (s : string) :
  String.length (strip_tags_go st s) <= len_inside st + String.length s.
Proof.
  revert st. induction s as [|c s IH]; intros st; simpl.
  - destruct st; simpl; lia.
  - destruct st as [buf|].
    + destruct (Ascii.eqb c ">").
      * specialize (IH None). simpl in IH. lia.
      * specialize (IH (Some (buf ++ String c "")%string)). simpl in IH.
        rewrite length_append_str in IH. simpl in IH. simpl. lia.
    + destruct (Ascii.eqb c "<").
      * specialize (IH (Some (String c ""))). simpl in *. lia.
      * specialize (IH None). simpl in *. lia.
Qed.

Lemma strip_tags_go_gt_shorter (s buf : string) :
  contains_gt s = true ->
  String.length (strip_tags_go (Some buf) s) < String.length buf + String.length s.
Proof.
  revert buf. induction s as [|c s IH]; intros buf H; simpl in *; [discriminate|].
  destruct (Ascii.eqb c ">") eqn:E.
  - pose proof (strip_tags_go_length None s). simpl in *. lia.
  - specialize (IH (buf ++ String c "")%string H). rewrite length_append_str in IH.
    simpl in IH. lia.
Qed.

Lemma has_tag_contains_gt (s : string) : has_tag s = true -> contains_gt s = true.
Proof.
  induction s as [|c s IH]; simpl; [discriminate|].
  intros H. apply orb_true_iff in H as [H|H].
  - apply andb_true_iff in H as [_ H]. rewrite H, orb_true_r. reflexivity.
  - rewrite (IH H), orb_true_r. reflexivity.
Qed.

Lemma replace_tags_shorter (s : string) :
  has_tag s = true -> String.length (replace_tags s) < String.length s.
Proof.
  unfold replace_tags. induction s as [|c s IH]; simpl; intros H; [discriminate|].
  destruct (Ascii.eqb c "<") eqn:E.
  - assert (Hg : contains_gt s = true).
    { simpl in H. apply orb_true_iff in H as [H|H]; [exact H | exact (has_tag_contains_gt _ H)]. }
    pose proof (strip_tags_go_gt_shorter s (String c "") Hg). simpl in *. lia.
  - simpl in H. simpl. specialize (IH H). lia.
Qed.

(** The loop of [stripHtmlTags] ends, within [length html + 1] passes, on a
    string in which no ['<'] is followed by a ['>'], so that a further pass
    of the tag regular expression leaves it unchanged. *)
Theorem strip_loop_fixpoint (fuel : nat) (html : string) :
  String.length html < fuel ->
  has_tag (strip_loop fuel html) = false /\
  replace_tags (strip_loop fuel html) = strip_loop fuel html.
Proof.
  revert html. induction fuel as [|f IH]; intros html Hlen; [lia|].
  simpl. destruct (String.eqb_spec (replace_tags html) html) as [E|E].
  - split; [|exact E].
    destruct (has_tag html) eqn:Ht; [|reflexivity].
    pose proof (replace_tags_shorter _ Ht). rewrite E in H. lia.
  - apply IH. destruct (has_tag html) eqn:Ht.
    + pose proof (replace_tags_shorter _ Ht). lia.
    + exfalso. exact (E (replace_tags_no_tag _ Ht)).
Qed.

Lemma strip_loop_fixpoint_witness :
  String.length "<<script>script>x</script>" < String.length "<<script>script>x</script>" + 1 /\
  has_tag (strip_loop 27 "<<script>script>x</script>") = false /\
  replace_tags (strip_loop 27 "<<script>script>x</script>") = strip_loop 27 "<<script>script>x</script>".
Proof. split; [simpl; lia | apply strip_loop_fixpoint; simpl; lia]. Defined.

Lemma concat_map_str_app (f : ascii -> string) (c : ascii) (s : string) :
  concat_map_str f (String c s) = (f c ++ concat_map_str f s)%string.
Proof. reflexivity. Qed.

(** A pass that maps each escaped chunk [f c] to [g c] maps the escaping
    of a whole string. *)
Lemma pass_concat_map (pass : string -> string) (f g : ascii -> string) (t : string) :
  pass "" = "" ->
  (forall c s, pass (f c ++ s)%string = (g c ++ pass s)%string) ->
  pass (concat_map_str f t) = concat_map_str g t.
Proof.
  intros H0 H. induction t as [|c t IH]; simpl; [exact H0|].
  rewrite H, IH. reflexivity.
Qed.

Lemma replace_from_other (d : ascii) (p rep : string) (c : ascii) (s : string) :
  c <> d ->
  replace_from (String d p) rep 0 (String c s) = String c (replace_from (String d p) rep 0 s).
Proof.
  intros H. cbn [replace_from starts_with].
  rewrite (proj2 (Ascii.eqb_neq d c) (fun E => H (eq_sym E))). reflexivity.
Qed.

Lemma strip_tags_go_other (c : ascii) (s : string) :
  c <> "<"%char -> strip_tags_go None (String c s) = String c (strip_tags_go None s).
Proof. intros H. cbn [strip_tags_go]. rewrite (proj2 (Ascii.eqb_neq c "<") H). reflexivity. Qed.

Ltac neq_ascii :=
  repeat match goal with
  | Hn : ?c <> ?d |- context [Ascii.eqb ?c ?d] => rewrite (proj2 (Ascii.eqb_neq c d) Hn)
  end.

(** Case analysis on a character: one of the five escaped ones (computed),
    or another one, handled by [other]. *)
Ltac per_char other :=
  intros c s; unfold escape_some, entity_of, replace_all, replace_tags;
  destruct (Ascii.eqb_spec c "&") as [->|H1]; [cbn; reflexivity|];
  destruct (Ascii.eqb_spec c "<") as [->|H2]; [cbn; reflexivity|];
  destruct (Ascii.eqb_spec c ">") as [->|H3]; [cbn; reflexivity|];
  destruct (Ascii.eqb_spec c dquote) as [->|H4]; [cbn; reflexivity|];
  destruct (Ascii.eqb_spec c "'") as [->|H5]; [cbn; reflexivity|];
  cbn [existsb]; neq_ascii; cbn [orb append]; other.

Ltac other_replace :=
  rewrite replace_from_other by assumption; reflexivity.

Definition esc0 : list ascii := ["&"; "<"; ">"; dquote; "'"]%char.
Definition esc1 : list ascii := ["&"; ">"; dquote; "'"]%char.
Definition esc2 : list ascii := ["&"; dquote; "'"]%char.
Definition esc3 : list ascii := ["&"; "'"]%char.
Definition esc4 : list ascii := ["&"]%char.

Lemma pass_nbsp (c : ascii) (s : string) :
  replace_all "&nbsp;" " " (escape_some esc0 c ++ s)
    = (escape_some esc0 c ++ replace_all "&nbsp;" " " s)%string.
Proof. revert c s. unfold esc0. per_char other_replace. Qed.

Lemma pass_lt (c : ascii) (s : string) :
  replace_all "&lt;" "<" (escape_some esc0 c ++ s)
    = (escape_some esc1 c ++ replace_all "&lt;" "<" s)%string.
Proof. revert c s. unfold esc0, esc1. per_char other_replace. Qed.

Lemma pass_gt (c : ascii) (s : string) :
  replace_all "&gt;" ">" (escape_some esc1 c ++ s)
    = (escape_some esc2 c ++ replace_all "&gt;" ">" s)%string.
Proof. revert c s. unfold esc1, esc2. per_char other_replace. Qed.

Lemma pass_quot (c : ascii) (s : string) :
  replace_all "&quot;" (String dquote "") (escape_some esc2 c ++ s)
    = (escape_some esc3 c ++ replace_all "&quot;" (String dquote "") s)%string.
Proof. revert c s. unfold esc2, esc3. per_char other_replace. Qed.

Lemma pass_apos (c : ascii) (s : string) :
  replace_all "&#39;" "'" (escape_some esc3 c ++ s)
    = (escape_some esc4 c ++ replace_all "&#39;" "'" s)%string.
Proof. revert c s. unfold esc3, esc4. per_char other_replace. Qed.

Lemma pass_amp (c : ascii) (s : string) :
  replace_all "&amp;" "&" (escape_some esc4 c ++ s)
    = (escape_some [] c ++ replace_all "&amp;" "&" s)%string.
Proof. revert c s. unfold esc4. per_char other_replace. Qed.

Lemma pass_tags (c : ascii) (s : string) :
  replace_tags (escape_some esc0 c ++ s) = (escape_some esc0 c ++ replace_tags s)%string.
Proof.
  revert c s. unfold esc0, replace_tags.
  per_char ltac:(rewrite strip_tags_go_other by assumption; reflexivity).
Qed.

Lemma escape_none (t : string) : concat_map_str (escape_some []) t = t.
Proof. induction t as [|c t IH]; simpl; [reflexivity|]. rewrite IH. reflexivity. Qed.

Lemma decode_escape (t : string) : decode_entities (escapeHtml t) = t.
Proof.
  unfold decode_entities, escapeHtml. fold esc0.
  rewrite (pass_concat_map _ _ _ t eq_refl pass_nbsp).
  rewrite (pass_concat_map _ _ _ t eq_refl pass_lt).
  rewrite (pass_concat_map _ _ _ t eq_refl pass_gt).
  rewrite (pass_concat_map _ _ _ t eq_refl pass_quot).
  rewrite (pass_concat_map _ _ _ t eq_refl pass_apos).
  rewrite (pass_concat_map _ _ _ t eq_refl pass_amp).
  apply escape_none.
Qed.

Lemma trim_end_cons (c : ascii) (s : string) :
  trim_end (String c s)
    = (if String.eqb (trim_end s) "" && is_js_space c then "" else String c (trim_end s)).
Proof. reflexivity. Qed.

Lemma trim_end_id (t : string) :
  (forall l, last_char t = Some l -> is_js_space l = false) -> trim_end t = t.
Proof.
  induction t as [|c t IH]; intros H; [reflexivity|].
  destruct t as [|c' t'].
  - simpl. rewrite (H c eq_refl). reflexivity.
  - rewrite trim_end_cons, IH by (intros l Hl; apply H; exact Hl).
    reflexivity.
Qed.

Lemma last_char_some (c : ascii) (t : string) : exists l, last_char (String c t) = Some l.
Proof.
  revert c. induction t as [|c' t IH]; intros c; [exists c; reflexivity|].
  destruct (IH c') as [l Hl]. exists l. exact Hl.
Qed.

Lemma js_trim_id (t : string) : no_edge_space t = true -> js_trim t = t.
Proof.
  unfold no_edge_space, js_trim. destruct t as [|c t']; [reflexivity|].
  destruct (last_char_some c t') as [l El]. rewrite El. intros H. apply andb_true_iff in H as [Hc Hl].
  apply negb_true_iff in Hc, Hl.
  cbn [trim_start]. rewrite Hc. apply trim_end_id.
  intros l' E. rewrite El in E. injection E as <-. exact Hl.
Qed.

Lemma escape_some_nonempty (k : list ascii) (c : ascii) : escape_some k c <> "".
Proof.
  unfold escape_some, entity_of.
  destruct (existsb (Ascii.eqb c) k); [|discriminate].
  repeat match goal with |- context [if ?b then _ else _] => destruct b end; discriminate.
Qed.

(** [stripHtmlTags] undoes HTML escaping: for a text [t] with no white
    space at either end, stripping its escaped form (ampersand, less-than,
    greater-than, double quote and apostrophe written as the entities amp,
    lt, gt, quot and #39) gives [t] back.  In particular a literal text
    [&lt;] comes back as [&lt;], not as a less-than sign, because [&amp;]
    is decoded last. *)
Theorem stripHtmlTags_escapeHtml (t : string) :
  no_edge_space t = true -> stripHtmlTags (escapeHtml t) = t.
Proof.
  intros Ht. unfold stripHtmlTags.
  destruct t as [|c t']; [reflexivity|].
  assert (Hne : String.eqb (escapeHtml (String c t')) "" = false).
  { apply String.eqb_neq. unfold escapeHtml. rewrite concat_map_str_app.
    pose proof (escape_some_nonempty esc0 c) as H. unfold esc0 in H.
    destruct (escape_some _ c); [contradiction | discriminate]. }
  rewrite Hne. rewrite Nat.add_1_r. cbn [strip_loop].
  assert (Htags : replace_tags (escapeHtml (String c t')) = escapeHtml (String c t')).
  { unfold escapeHtml. fold esc0. exact (pass_concat_map _ _ _ _ eq_refl pass_tags). }
  rewrite Htags, String.eqb_refl, decode_escape. exact (js_trim_id _ Ht).
Qed.

(** A text with each of the five characters round-trips; so does the
    literal text [&lt;] (escaped as [&amp;lt;]). *)
Lemma stripHtmlTags_escapeHtml_witness :
  no_edge_space ("a<b & " ++ String dquote "c" ++ String dquote " 'd'") = true /\
  stripHtmlTags (escapeHtml ("a<b & " ++ String dquote "c" ++ String dquote " 'd'"))
    = ("a<b & " ++ String dquote "c" ++ String dquote " 'd'")%string /\
  no_edge_space "&lt;" = true /\ stripHtmlTags (escapeHtml "&lt;") = "&lt;".
Proof.
  split; [vm_compute; reflexivity|split; [apply stripHtmlTags_escapeHtml; vm_compute; reflexivity|]].
  split; [vm_compute; reflexivity | apply stripHtmlTags_escapeHtml; vm_compute; reflexivity].
Defined.

(** ** Export *)

Lemma updateWorkItems_events (upd : list ExportEvent -> N -> string -> outcome unit)
    (items : list WorkItem) (build : string) (h : list ExportEvent) :
  updateWorkItems upd items build h
    = rev (map (fun item => EUpdateWorkItem (wi_id item) build) items) ++ h.
Proof.
  revert h. induction items as [|item rest IH]; intros h; simpl; [reflexivity|].
  destruct (upd h (wi_id item) build); rewrite IH, <- app_assoc; reflexivity.
Qed.

(** [handleExport]: with no consolidated work item it does nothing;
    otherwise, whatever the server answers, it sends one update per work
    item, in order and all with the same integration build, then downloads
    [ReleaseNote-<build>.csv] with one row per work item (type, id, title,
    an empty description and url), a failed update stopping nothing. *)
Theorem handleExport_events (upd : list ExportEvent -> N -> string -> outcome unit)
    (items : list WorkItem) (results : list ReleaseProcessingResult)
    (repositories : list Repository) :
  rev (handleExport upd items results repositories [])
    = match items with
      | [] => []
      | _ =>
          let build := integrationBuild results repositories in
          map (fun item => EUpdateWorkItem (wi_id item) build) items ++
          [EDownload ("ReleaseNote-" ++ build ++ ".csv")
             (map (fun item => mkCsvRow (wi_type item) (wi_id item) (wi_title item) ""
                                        (wi_url item)) items)]
      end.
Proof.
  destruct items as [|item rest]; [reflexivity|].
  unfold handleExport, exportToCSV. cbn zeta.
  rewrite updateWorkItems_events, app_nil_r.
  assert (Hc : forall (x : ExportEvent) l, rev (x :: l) = rev l ++ [x]) by reflexivity.
  rewrite Hc, rev_involutive, map_map. reflexivity.
Qed.

Lemma find_nth_error {A} (f : A -> bool) (l : list A) (x : A) :
  find f l = Some x -> exists i, nth_error l i = Some x.
Proof.
  intros H. apply find_some in H as [Hin _]. apply In_nth_error. exact Hin.
Qed.

Lemma str_app_nonempty (a : string) (c : ascii) (t : string) : (a ++ String c t)%string <> "".
Proof. destruct a; discriminate. Qed.

Lemma calculateNewVersion_nonempty (cv : option string) (b : BumpType) :
  calculateNewVersion cv b <> "".
Proof.
  unfold calculateNewVersion.
  destruct cv as [cv|]; [|destruct b; discriminate].
  destruct (_ || _ || _); [destruct b; discriminate|].
  destruct b; apply str_app_nonempty.
Qed.

(** The integration build written by the export after a run: if the main
    repository ([CareConnect.Pharmacy]) has no result, or its release
    failed, the work items are stamped with its current version (or 1.0);
    if its release succeeded, with the version just released for it. *)
Theorem processReleases_integrationBuild (remote : Remote) (repositories : list Repository)
    (h : list Call) :
  let results := fst (fst (processReleases remote repositories h)) in
  match find (fun r => String.eqb (pr_repository r) mainRepoName) results with
  | Some pr =>
      if pr_success pr
      then exists repo, In repo (filter selected repositories) /\
             repo_name repo = mainRepoName /\
             integrationBuild results repositories
               = calculateNewVersion (currentVersion repo) (bumpOf repo)
      else integrationBuild results repositories = mainVersion repositories
  | None => integrationBuild results repositories = mainVersion repositories
  end.
Proof.
  unfold processReleases. cbn zeta.
  destruct (processRepos_spec remote (filter selected repositories) (mkSt h [] []))
    as (rs & st' & Hrun & Hres & _ & Hlen & Hrel).
  rewrite Hrun. simpl. rewrite Hres. simpl.
  unfold integrationBuild.
  destruct (find (fun r => String.eqb (pr_repository r) mainRepoName) rs) as [pr|] eqn:Hf;
    [|reflexivity].
  destruct (find_nth_error _ _ _ Hf) as [i Hi].
  pose proof (find_some _ _ Hf) as [_ Hname]. apply String.eqb_eq in Hname.
  assert (Hlt : i < length (filter selected repositories)).
  { rewrite <- Hlen. apply nth_error_Some. congruence. }
  destruct (nth_error (filter selected repositories) i) as [repo|] eqn:Hr;
    [|apply nth_error_None in Hr; lia].
  destruct (Hrel i repo pr Hr Hi) as [Hn Hcase]. cbn zeta in Hcase.
  destruct (fst _) as [_|e].
  - destruct Hcase as (Hs & Hv). rewrite Hs, Hv.
    exists repo. split; [exact (nth_error_In _ _ Hr)|split; [congruence|]].
    destruct (String.eqb_spec (calculateNewVersion (currentVersion repo) (bumpOf repo)) "")
      as [E|_]; [exfalso; exact (calculateNewVersion_nonempty _ _ E)|reflexivity].
  - subst pr. reflexivity.
Qed.

(** ** Loading *)

Lemma parsed_not_sentinel (v : string) :
  parsed v -> v <> "" /\ v <> "Error loading" /\ v <> "No releases".
Proof.
  intros (a & b & H). split; [|split]; intros ->; vm_compute in H; discriminate H.
Qed.

Lemma getLatestReleaseVersion_ok (remote : Remote) (repositoryId : string) (h : list Call) :
  exists r, getLatestReleaseVersion remote repositoryId h
              = (Ok r, CGetRepositoryRefs repositoryId :: h) /\
            match r with None => True | Some x => parsed x end.
Proof.
  unfold getLatestReleaseVersion, catch, bind, getRepositoryRefs, request, ret.
  destruct (r_refs remote h repositoryId) as [refs|e] eqn:Hr; [|exists None; split; reflexivity].
  assert (Hp : Forall parsed (releaseBranches refs)).
  { apply Forall_forall. intros x Hx. apply releaseBranches_In in Hx as (ref & _ & _ & Hc).
    exact (release_capture_parsed _ _ Hc). }
  pose proof (sort_head_max _ Hp) as Hmax.
  destruct (releaseBranches refs) as [|b bs] eqn:Eb; [exists None; split; reflexivity|].
  exists (hd_error (sort (b :: bs))). split; [reflexivity|].
  destruct (hd_error (sort (b :: bs))) as [m|]; [|exact I].
  destruct Hmax as [Hin _]. rewrite Forall_forall in Hp. exact (Hp m Hin).
Qed.

Lemma loadRepositories_spec (remote : Remote) (names : list string) (h : list Call) :
  exists repos h', loadRepositories remote names h = (Ok repos, h') /\
    map repo_name repos = names /\
    forall repo, In repo repos ->
      repo_id repo = repo_name repo /\ selected repo = false /\ bumpType repo = None /\
      exists v, currentVersion repo = Some v /\ v <> "Error loading" /\
                (v = "No releases" \/ parsed v).
Proof.
  revert h. induction names as [|n rest IH]; intros h.
  - exists [], h. split; [reflexivity|split; [reflexivity|intros _ []]].
  - destruct (getLatestReleaseVersion_ok remote n h) as (r & Hrun & Hr).
    set (repo := mkRepository n n (Some (match r with
                   | Some v => if String.eqb v "" then "No releases" else v
                   | None => "No releases" end)) false None).
    destruct (IH (CGetRepositoryRefs n :: h)) as (repos & h' & Hrest & Hnames & Hall).
    exists (repo :: repos), h'. split; [|split].
    + assert (Hl : loadRepository remote n h = (Ok repo, CGetRepositoryRefs n :: h)).
      { unfold loadRepository, catch, bind. rewrite Hrun. reflexivity. }
      simpl loadRepositories. unfold bind at 1. rewrite Hl.
      unfold bind. rewrite Hrest. reflexivity.
    + simpl. rewrite Hnames. reflexivity.
    + intros x [<-|Hx]; [|exact (Hall x Hx)].
      simpl. split; [reflexivity|split; [reflexivity|split; [reflexivity|]]].
      eexists; split; [reflexivity|].
      destruct r as [v|]; [|split; [discriminate|left; reflexivity]].
      destruct (parsed_not_sentinel v Hr) as (H1 & H2 & _).
      rewrite (proj2 (String.eqb_neq v "") H1). split; [exact H2|right; exact Hr].
Qed.

(** [loadRepositoryVersions] lists one repository per configured name (or
    [TestPipelines] when none is configured), in order, unselected, with no
    bump type, id equal to name, and as current version either
    [No releases] or a version parsed from a release branch.  It never
    produces the [Error loading] marker: [getLatestReleaseVersion] catches
    its own failures. *)
Theorem loadRepositoryVersions_spec (remote : Remote) (selectedRepositoryNames : list string)
    (h : list Call) :
  exists repos h', loadRepositoryVersions remote selectedRepositoryNames h = (Ok repos, h') /\
    map repo_name repos = match selectedRepositoryNames with
                          | [] => ["TestPipelines"]
                          | _ => selectedRepositoryNames
                          end /\
    forall repo, In repo repos ->
      repo_id repo = repo_name repo /\ selected repo = false /\ bumpType repo = None /\
      exists v, currentVersion repo = Some v /\ v <> "Error loading" /\
                (v = "No releases" \/ parsed v).
Proof. apply loadRepositories_spec. Qed.

(** ** Repository selection *)

Lemma mergeRepo_idem (repo : Repository) (u : RepoUpdate) :
  mergeRepo (mergeRepo repo u) u = mergeRepo repo u.
Proof.
  destruct u as [[s|] [b|]]; reflexivity.
Qed.

Lemma updateEach_spec (snapshot : list Repository) (u : RepoUpdate)
    (repositories : list Repository) :
  updateEach snapshot u repositories
    = map (fun r => if existsb (fun s => String.eqb (repo_name s) (repo_name r)) snapshot
                    then mergeRepo r u else r) repositories.
Proof.
  revert repositories. induction snapshot as [|s rest IH]; intros repositories.
  - simpl. symmetry. apply map_id.
  - unfold updateEach. cbn [fold_left].
    change (fold_left (fun st repo => updateRepository (repo_name repo) u st) rest
              (updateRepository (repo_name s) u repositories))
      with (updateEach rest u (updateRepository (repo_name s) u repositories)).
    rewrite IH. unfold updateRepository. rewrite map_map.
    apply map_ext. intros r. cbn [existsb].
    rewrite (String.eqb_sym (repo_name s) (repo_name r)).
    destruct (String.eqb (repo_name r) (repo_name s)); simpl.
    + destruct (existsb _ rest); [apply mergeRepo_idem|reflexivity].
    + reflexivity.
Qed.

Lemma existsb_name_self (r : Repository) (l : list Repository) :
  In r l -> existsb (fun s => String.eqb (repo_name s) (repo_name r)) l = true.
Proof.
  intros Hin. apply existsb_exists. exists r. split; [exact Hin|apply String.eqb_refl].
Qed.

Lemma NoDup_map_inj {A B} (f : A -> B) (l : list A) (x y : A) :
  NoDup (map f l) -> In x l -> In y l -> f x = f y -> x = y.
Proof.
  induction l as [|a l IH]; simpl; [intros _ []|].
  intros Hnd Hx Hy Hf. apply NoDup_cons_iff in Hnd as [Hna Hnd].
  destruct Hx as [<-|Hx], Hy as [<-|Hy]; [reflexivity| | |exact (IH Hnd Hx Hy Hf)].
  - exfalso. apply Hna. rewrite Hf. apply in_map. exact Hy.
  - exfalso. apply Hna. rewrite <- Hf. apply in_map. exact Hx.
Qed.

(** [handleSelectAll] flips the Select All flag and sets every repository's
    selection to the new flag, leaving its id, name, version and bump type
    as they were. *)
Theorem handleSelectAll_spec (selectAll : bool) (repositories : list Repository) :
  handleSelectAll selectAll repositories
    = (negb selectAll,
       map (fun r => mkRepository (repo_id r) (repo_name r) (currentVersion r)
                       (negb selectAll) (bumpType r)) repositories).
Proof.
  unfold handleSelectAll. cbn zeta. f_equal.
  rewrite updateEach_spec. apply map_ext_in. intros r Hin.
  rewrite existsb_name_self by exact Hin. reflexivity.
Qed.

Lemma find_updateRepository (name : string) (u : RepoUpdate) (repositories : list Repository) :
  find (fun r => String.eqb (repo_name r) name) (updateRepository name u repositories)
    = option_map (fun r => mergeRepo r u)
        (find (fun r => String.eqb (repo_name r) name) repositories).
Proof.
  induction repositories as [|a rest IH]; [reflexivity|].
  unfold updateRepository in *. simpl.
  destruct (String.eqb (repo_name a) name) eqn:E; simpl; rewrite E; [reflexivity|exact IH].
Qed.

(** After a repository's checkbox is toggled, the Select All flag is on
    exactly when every repository is selected; toggling a name that is not
    in the list changes nothing. *)
Theorem handleRepoToggle_selectAll (repoName : string) (selectAll : bool)
    (repositories : list Repository) :
  let (repositories', selectAll') := handleRepoToggle repoName selectAll repositories in
  if existsb (fun r => String.eqb (repo_name r) repoName) repositories
  then selectAll' = forallb selected repositories'
  else repositories' = repositories /\ selectAll' = selectAll.
Proof.
  unfold handleRepoToggle.
  destruct (find (fun r => String.eqb (repo_name r) repoName) repositories) as [r0|] eqn:Hf.
  - assert (Hex : existsb (fun r => String.eqb (repo_name r) repoName) repositories = true).
    { apply find_some in Hf as [Hin Hn]. apply existsb_exists. exists r0. auto. }
    rewrite Hex. unfold updateRepository. clear.
    induction repositories as [|a rest IH]; [reflexivity|].
    simpl. rewrite IH. destruct (String.eqb (repo_name a) repoName); reflexivity.
  - assert (Hex : existsb (fun r => String.eqb (repo_name r) repoName) repositories = false).
    { apply Bool.not_true_iff_false. intros Hex. apply existsb_exists in Hex as (x & Hx & Hn).
      rewrite (find_none _ _ Hf x Hx) in Hn. discriminate Hn. }
    rewrite Hex. split; reflexivity.
Qed.

(** When repository names are unique, toggling the same repository twice
    gives back the repositories as they were. *)
Theorem handleRepoToggle_twice (repoName : string) (selectAll : bool)
    (repositories : list Repository) :
  NoDup (map repo_name repositories) ->
  let t1 := handleRepoToggle repoName selectAll repositories in
  fst (handleRepoToggle repoName (snd t1) (fst t1)) = repositories.
Proof.
  intros Hnd. cbn zeta.
  generalize (snd (handleRepoToggle repoName selectAll repositories)) as sa'. intros sa'.
  destruct (find (fun r => String.eqb (repo_name r) repoName) repositories) as [r0|] eqn:Hf.
  - assert (Ht : fst (handleRepoToggle repoName selectAll repositories)
                 = updateRepository repoName (mkRepoUpdate (Some (negb (selected r0))) None)
                     repositories) by (unfold handleRepoToggle; rewrite Hf; reflexivity).
    rewrite Ht. unfold handleRepoToggle. rewrite find_updateRepository, Hf. cbn [option_map fst].
    apply find_some in Hf as [Hin0 Hn0]. apply String.eqb_eq in Hn0.
    unfold updateRepository. rewrite map_map.
    rewrite <- (map_id repositories) at 2. apply map_ext_in. intros r Hin.
    destruct (String.eqb (repo_name r) repoName) eqn:E.
    + apply String.eqb_eq in E.
      assert (r = r0) as -> by (apply (NoDup_map_inj repo_name repositories); congruence).
      cbn [mergeRepo repo_name u_selected u_bumpType selected].
      rewrite Hn0, String.eqb_refl. cbn [mergeRepo u_selected u_bumpType selected].
      rewrite Bool.negb_involutive. destruct r0; reflexivity.
    + rewrite E. reflexivity.
  - assert (Ht : fst (handleRepoToggle repoName selectAll repositories) = repositories)
      by (unfold handleRepoToggle; rewrite Hf; reflexivity).
    rewrite Ht. unfold handleRepoToggle. rewrite Hf. reflexivity.
Qed.

Lemma handleRepoToggle_twice_witness :
  NoDup (map repo_name [mkRepository "a" "a" (Some "1.0") false None;
                        mkRepository "b" "b" None true (Some minor)]) /\
  (let t1 := handleRepoToggle "a" false [mkRepository "a" "a" (Some "1.0") false None;
                                         mkRepository "b" "b" None true (Some minor)] in
   fst (handleRepoToggle "a" (snd t1) (fst t1))
     = [mkRepository "a" "a" (Some "1.0") false None;
        mkRepository "b" "b" None true (Some minor)]).
Proof.
  assert (Hnd : NoDup (map repo_name [mkRepository "a" "a" (Some "1.0") false None;
                                      mkRepository "b" "b" None true (Some minor)])).
  { simpl. constructor; [simpl; intros [H|[]]; discriminate H|].
    constructor; [intros []|constructor]. }
  split; [exact Hnd|apply handleRepoToggle_twice; exact Hnd].
Defined.

(** When repository names are unique, a bulk bump sets the bump type of
    exactly the selected repositories and leaves the others untouched. *)
Theorem handleBulk_spec (b : BumpType) (repositories : list Repository) :
  NoDup (map repo_name repositories) ->
  handleBulk b repositories
    = map (fun r => if selected r
                    then mkRepository (repo_id r) (repo_name r) (currentVersion r) true (Some b)
                    else r) repositories.
Proof.
  intros Hnd. unfold handleBulk. rewrite updateEach_spec. apply map_ext_in. intros r Hin.
  destruct (selected r) eqn:Hs.
  - rewrite existsb_name_self by (apply filter_In; auto).
    unfold mergeRepo. simpl. rewrite Hs. reflexivity.
  - destruct (existsb _ _) eqn:Hex; [|reflexivity].
    apply existsb_exists in Hex as (s & Hsin & Hn). apply filter_In in Hsin as [Hsin Hss].
    apply String.eqb_eq in Hn.
    assert (s = r) as -> by exact (NoDup_map_inj repo_name repositories s r Hnd Hsin Hin Hn).
    congruence.
Qed.

Lemma handleBulk_spec_witness :
  NoDup (map repo_name [mkRepository "a" "a" None true None;
                        mkRepository "b" "b" None false None]) /\
  handleBulk major [mkRepository "a" "a" None true None; mkRepository "b" "b" None false None]
    = map (fun r => if selected r
                    then mkRepository (repo_id r) (repo_name r) (currentVersion r) true (Some major)
                    else r)
          [mkRepository "a" "a" None true None; mkRepository "b" "b" None false None].
Proof.
  assert (Hnd : NoDup (map repo_name [mkRepository "a" "a" None true None;
                                      mkRepository "b" "b" None false None])).
  { simpl. constructor; [simpl; intros [H|[]]; discriminate H|].
    constructor; [intros []|constructor]. }
  split; [exact Hnd|apply handleBulk_spec; exact Hnd].
Defined.

Lemma filter_map_keep {A} (p : A -> bool) (g : A -> A) (l : list A) :
  (forall x, p (g x) = p x) -> filter p (map g l) = map g (filter p l).
Proof.
  intros Hp. induction l as [|a l IH]; [reflexivity|].
  simpl. rewrite Hp. destruct (p a); simpl; rewrite IH; reflexivity.
Qed.

(** After a bulk Major or Minor bump, the release can be started as soon as
    at least one repository is selected: every selected repository then
    has a bump type. *)
Theorem handleBulk_canProcess (b : BumpType) (repositories : list Repository) :
  existsb selected repositories = true -> canProcess (handleBulk b repositories) = true.
Proof.
  intros Hex. unfold handleBulk, canProcess. rewrite updateEach_spec.
  rewrite filter_map_keep
    by (intros x; destruct (existsb _ (filter selected repositories)); reflexivity).
  apply andb_true_intro. split.
  - rewrite length_map. apply Nat.ltb_lt.
    apply existsb_exists in Hex as (x & Hx & Hs).
    destruct (filter selected repositories) eqn:E; [|simpl; lia].
    assert (Hin : In x (filter selected repositories)) by (apply filter_In; auto).
    rewrite E in Hin. destruct Hin.
  - apply forallb_forall. intros y Hy. apply in_map_iff in Hy as (x & <- & Hx).
    rewrite existsb_name_self by exact Hx. reflexivity.
Qed.

Lemma handleBulk_canProcess_witness :
  existsb selected [mkRepository "a" "a" None true None; mkRepository "b" "b" None false None]
    = true /\
  canProcess (handleBulk minor [mkRepository "a" "a" None true None;
                                mkRepository "b" "b" None false None]) = true.
Proof.
  split; [reflexivity|apply handleBulk_canProcess; reflexivity].
Defined.

(** ** Wizard navigation *)

(** Whatever sequence of Next and Back presses, the wizard stays on one of
    its three steps. *)
Theorem navigate_in_range (currentStep : Z) (actions : list NavAction) :
  (0 <= currentStep <= stepCount - 1)%Z ->
  (0 <= navigate currentStep actions <= stepCount - 1)%Z.
Proof.
  unfold navigate. revert currentStep.
  induction actions as [|a rest IH]; intros s Hs; simpl; [exact Hs|].
  apply IH. unfold handleNext, handleBack, stepCount in *.
  destruct a; lia.
Qed.

Lemma navigate_in_range_witness :
  (0 <= 0 <= stepCount - 1)%Z /\
  (0 <= navigate 0 [Next; Next; Next; Back; Back; Back] <= stepCount - 1)%Z.
Proof.
  split; [unfold stepCount; lia|apply navigate_in_range; unfold stepCount; lia].
Defined.

(** ** Release refs and tag ranges *)

(** Creating a repository's release refs makes at most three service calls,
    in order: [getMainBranchCommit], then [createBranch] for
    [release/<v>.x] from main, then [createTag].  A failed call ends it with
    that call's error and nothing after it is requested; the tag is named
    [v], has message [Release v] and points at the commit the main lookup
    returned. *)
Theorem createReleaseRefs_tag_after_branch (remote : Remote) (repo : Repository)
    (newVersion : string) (h : list Call) :
  let id := repo_id repo in
  let branch := ("refs/heads/release/" ++ newVersion ++ ".x")%string in
  createReleaseRefs remote repo newVersion h =
    match r_mainBranchCommit remote h id with
    | Err e => (Err e, [CGetMainBranchCommit id] ++ h)
    | Ok mainCommitId =>
        match r_createBranch remote (CGetMainBranchCommit id :: h) id branch "refs/heads/main" with
        | Err e => (Err e, [CCreateBranch id branch "refs/heads/main";
                            CGetMainBranchCommit id] ++ h)
        | Ok _ =>
            (r_createTag remote
               (CCreateBranch id branch "refs/heads/main" :: CGetMainBranchCommit id :: h)
               id newVersion mainCommitId ("Release " ++ newVersion),
             [CCreateTag id newVersion mainCommitId ("Release " ++ newVersion);
              CCreateBranch id branch "refs/heads/main"; CGetMainBranchCommit id] ++ h)
        end
    end.
Proof.
  cbn zeta. unfold createReleaseRefs, getMainBranchCommit, createBranch, createTag, bind, request.
  destruct (r_mainBranchCommit remote h (repo_id repo)) as [c|e]; [|reflexivity].
  destruct (r_createBranch remote (CGetMainBranchCommit (repo_id repo) :: h) (repo_id repo)
              ("refs/heads/release/" ++ newVersion ++ ".x") "refs/heads/main");
    reflexivity.
Qed.

(** [getCommitsBetweenTags] fails right after listing the tags when the
    listing fails (with its error) or when either tag is missing (with
    [Tags not found: <old> or <new>]): no tag is dereferenced and no commit
    is requested then. *)
Theorem getCommitsBetweenTags_tags_not_found (remote : Remote)
    (repositoryId oldTag newTag : string) (h : list Call) :
  match r_tags remote h repositoryId with
  | Err e => getCommitsBetweenTags remote repositoryId oldTag newTag h
               = (Err e, CGetRepositoryTags repositoryId :: h)
  | Ok tags =>
      match find (fun t => String.eqb (ref_name t) ("refs/tags/" ++ oldTag)) tags,
            find (fun t => String.eqb (ref_name t) ("refs/tags/" ++ newTag)) tags with
      | Some _, Some _ => True
      | _, _ => getCommitsBetweenTags remote repositoryId oldTag newTag h
                  = (Err ("Tags not found: " ++ oldTag ++ " or " ++ newTag),
                     CGetRepositoryTags repositoryId :: h)
      end
  end.
Proof.
  unfold getCommitsBetweenTags, getRepositoryTags, request, bind. cbv beta.
  destruct (r_tags remote h repositoryId) as [tags|e]; [|reflexivity].
  cbn zeta.
  destruct (find (fun t => String.eqb (ref_name t) ("refs/tags/" ++ oldTag)) tags),
           (find (fun t => String.eqb (ref_name t) ("refs/tags/" ++ newTag)) tags);
    reflexivity.
Qed.

(** ** The settings dialog *)

Lemma filter_neq_notin (n : string) (l : list string) :
  existsb (String.eqb n) l = false -> filter (fun x => negb (String.eqb x n)) l = l.
Proof.
  induction l as [|a l IH]; simpl; [reflexivity|].
  intros H. apply orb_false_iff in H as [Ha Hl].
  rewrite String.eqb_sym, Ha. simpl. rewrite IH by exact Hl. reflexivity.
Qed.

Lemma existsb_filter_neq (n : string) (l : list string) :
  existsb (String.eqb n) (filter (fun x => negb (String.eqb x n)) l) = false.
Proof.
  induction l as [|a l IH]; simpl; [reflexivity|].
  destruct (String.eqb a n) eqn:E; simpl; [exact IH|].
  rewrite String.eqb_sym, E. exact IH.
Qed.

(** In the settings dialog, toggling the same repository twice restores
    the selection when it was not selected; when it was, the first toggle
    removes every occurrence of the name and the second puts it back at
    the end of the selection. *)
Theorem settings_handleRepoToggle_twice (repoName : string)
    (allRepositories : list AzureRepo) (prev : list string) :
  fst (SettingsMenu.handleRepoToggle repoName allRepositories
         (fst (SettingsMenu.handleRepoToggle repoName allRepositories prev)))
    = if existsb (String.eqb repoName) prev
      then filter (fun name => negb (String.eqb name repoName)) prev ++ [repoName]
      else prev.
Proof.
  unfold SettingsMenu.handleRepoToggle. cbn [fst].
  destruct (existsb (String.eqb repoName) prev) eqn:E.
  - rewrite existsb_filter_neq. reflexivity.
  - assert (Hin : existsb (String.eqb repoName) (prev ++ [repoName]) = true).
    { rewrite existsb_app. simpl. rewrite String.eqb_refl, orb_true_r. reflexivity. }
    rewrite Hin, filter_app, filter_neq_notin by exact E.
    simpl. rewrite String.eqb_refl. apply app_nil_r.
Qed.

(** Saving the settings refuses an empty selection; a saved selection is
    what the repository step then loads: one repository per saved name, in
    order, never the [TestPipelines] fallback. *)
Theorem settings_handleSave_then_load (remote : Remote) (localSelection : list string)
    (h : list Call) :
  match SettingsMenu.handleSave localSelection with
  | Err e => localSelection = [] /\ e = "Please select at least one repository"
  | Ok names =>
      exists repos h', loadRepositoryVersions remote names h = (Ok repos, h') /\
        map repo_name repos = localSelection
  end.
Proof.
  destruct localSelection as [|n rest]; [split; reflexivity|].
  destruct (loadRepositories_spec remote (n :: rest) h) as (repos & h' & Hrun & Hnames & _).
  exists repos, h'. split; [exact Hrun|exact Hnames].
Qed.

(** ** Sentinel versions in the pipeline *)

(** C6: a repository as the loader produced it (its selection and bump type
    set afterwards) whose current version is a sentinel has the version
    [No releases]: a failed version lookup arrives as [No releases] too,
    since [getLatestReleaseVersion] catches its failures.  Provided branch
    and tag creation succeed, the pipeline then skips the range and
    work-item stages (no request after the tag) and records the repository
    as a success with an empty work-item list. *)
Theorem processRepo_loaded_sentinel_skips (loadRemote remote : Remote)
    (selectedRepositoryNames : list string) (h0 h1 : list Call)
    (repos : list Repository) (loaded repo : Repository) (st : St) :
  loadRepositoryVersions loadRemote selectedRepositoryNames h0 = (Ok repos, h1) ->
  In loaded repos ->
  currentVersion repo = currentVersion loaded ->
  is_sentinel (currentVersion repo) = true ->
  let v := calculateNewVersion (currentVersion repo) (bumpOf repo) in
  fst (createReleaseRefs remote repo v (history st)) = Ok tt ->
  currentVersion repo = Some "No releases" /\
  processRepo remote repo st
    = (Ok tt, mkSt (snd (createReleaseRefs remote repo v (history st)))
                   (processingResults st ++ [mkResult (repo_name repo) true (Some v) None (Some [])])
                   (allWorkItems st)).
Proof.
  intros Hload Hin Hcv Hs v Hrefs.
  destruct (loadRepositories_spec loadRemote
              (match selectedRepositoryNames with [] => ["TestPipelines"] | _ => selectedRepositoryNames end)
              h0) as (repos' & h' & Hrun & _ & Hall).
  unfold loadRepositoryVersions in Hload. cbn zeta in Hload.
  rewrite Hrun in Hload. injection Hload as <- <-.
  destruct (Hall loaded Hin) as (_ & _ & _ & w & Hw & _ & Hor).
  assert (Hnr : currentVersion repo = Some "No releases").
  { rewrite Hcv, Hw. destruct Hor as [->|Hp]; [reflexivity|].
    exfalso. destruct (parsed_not_sentinel w Hp) as (H1 & H2 & H3).
    rewrite Hcv, Hw in Hs. simpl in Hs.
    rewrite (proj2 (String.eqb_neq _ _) H1), (proj2 (String.eqb_neq _ _) H2),
      (proj2 (String.eqb_neq _ _) H3) in Hs.
    discriminate Hs. }
  split; [exact Hnr|].
  subst v. unfold processRepo, catch, bind, lift.
  destruct (createReleaseRefs remote repo (calculateNewVersion (currentVersion repo) (bumpOf repo))
              (history st)) as [r h2].
  simpl in Hrefs. subst r.
  unfold workItemsStage, oldTagNameOf, addProcessingResult, ret. rewrite Hnr. reflexivity.
Qed.

Lemma processRepo_loaded_sentinel_skips_witness :
  let loaded := mkRepository "A" "A" (Some "No releases") false None in
  let repo := mkRepository "A" "A" (Some "No releases") true (Some minor) in
  loadRepositoryVersions (demoRemote []) ["A"] [] = (Ok [loaded], [CGetRepositoryRefs "A"]) /\
  In loaded [loaded] /\
  currentVersion repo = currentVersion loaded /\
  is_sentinel (currentVersion repo) = true /\
  fst (createReleaseRefs (demoRemote []) repo
         (calculateNewVersion (currentVersion repo) (bumpOf repo)) []) = Ok tt /\
  (currentVersion repo = Some "No releases" /\
   processRepo (demoRemote []) repo (mkSt [] [] [])
     = (Ok tt, mkSt (snd (createReleaseRefs (demoRemote []) repo
                            (calculateNewVersion (currentVersion repo) (bumpOf repo)) []))
                    ([] ++ [mkResult (repo_name repo) true
                              (Some (calculateNewVersion (currentVersion repo) (bumpOf repo)))
                              None (Some [])])
                    [])).
Proof.
  cbn zeta.
  assert (Hl : loadRepositoryVersions (demoRemote []) ["A"] []
               = (Ok [mkRepository "A" "A" (Some "No releases") false None],
                  [CGetRepositoryRefs "A"])) by (vm_compute; reflexivity).
  assert (Hr : fst (createReleaseRefs (demoRemote [])
                      (mkRepository "A" "A" (Some "No releases") true (Some minor))
                      (calculateNewVersion (Some "No releases") minor) []) = Ok tt)
    by (vm_compute; reflexivity).
  split; [exact Hl|split; [left; reflexivity|split; [reflexivity|split; [reflexivity|]]]].
  split; [exact Hr|].
  exact (processRepo_loaded_sentinel_skips (demoRemote []) (demoRemote []) ["A"] [] _ _
           (mkRepository "A" "A" (Some "No releases") false None)
           (mkRepository "A" "A" (Some "No releases") true (Some minor)) (mkSt [] [] [])
           Hl (or_introl eq_refl) eq_refl eq_refl Hr).
Defined.
